(** * keylock: per-key spin locks over a registry of lock cells

    A shallow embedding of [keylock.go].  The manager [KeyLock] owns
    a registry from keys to pointers to [spinLock] cells, the counter of
    held locks and the backoff ceiling [maxSpins].  Every atomic
    primitive the code calls is a function on the manager's state; the
    methods are written as the source composes them. *)

From stdpp Require Import gmap strings list fin_maps.
From Stdlib Require Import ZArith Lia Ascii.

Local Open Scope Z_scope.

#[local] Set Warnings "-clear-no-such-hyp".

(** ** Machine integers *)

(** Two's complement wrap-around at [w] bits. *)
Definition wrap (w z : Z) : Z := (z + 2 ^ (w - 1)) mod 2 ^ w - 2 ^ (w - 1).

(** [int32]: the type of [count], [maxSpins] and of a [spinLock]. *)
Definition int32 (z : Z) : Z := wrap 32 z.

(** [int]: the type of [backoff]; 64 bits wide on the usual targets. *)
Definition int (z : Z) : Z := wrap 64 z.

Definition in_int32 (z : Z) : Prop := - 2 ^ 31 <= z < 2 ^ 31.

(** ** The manager *)

(** A pointer to a [spinLock]: its index in the store of cells. *)
Abbreviation loc := nat (only parsing).

Record KeyLock := mkKeyLock {
  locks : gmap string loc;  (* sync.Map, map[string]*spinLock *)
  cells : list Z;           (* the spinLock objects the pointers designate *)
  count : Z;                (* int32, number of currently held locks *)
  maxSpins : Z              (* int32, max backoff spins while waiting *)
}.

Definition set_locks (m : gmap string loc) (kl : KeyLock) : KeyLock :=
  mkKeyLock m (cells kl) (count kl) (maxSpins kl).

Definition set_cells (cs : list Z) (kl : KeyLock) : KeyLock :=
  mkKeyLock (locks kl) cs (count kl) (maxSpins kl).

Definition set_count (c : Z) (kl : KeyLock) : KeyLock :=
  mkKeyLock (locks kl) (cells kl) c (maxSpins kl).

Definition defaultMaxSpins : Z := 16.

(** [New]: an empty registry, a zero counter, the default ceiling. *)
Definition New : KeyLock := mkKeyLock ∅ [] 0 defaultMaxSpins.

(** [WithMaxSpins]: stores [max] and returns the same manager. *)
Definition WithMaxSpins (max : Z) (kl : KeyLock) : KeyLock :=
  mkKeyLock (locks kl) (cells kl) (count kl) max.

(** ** Atomic primitives *)

(** [atomic.LoadInt32] on a cell; a pointer outside the store holds nothing. *)
Definition LoadInt32 (lock : loc) (kl : KeyLock) : option Z := cells kl !! lock.

(** [atomic.StoreInt32] on a cell. *)
Definition StoreInt32 (lock : loc) (v : Z) (kl : KeyLock) : KeyLock :=
  set_cells (<[lock := v]> (cells kl)) kl.

(** [atomic.CompareAndSwapInt32] on a cell. *)
Definition CompareAndSwapInt32 (lock : loc) (old new : Z) (kl : KeyLock)
  : bool * KeyLock :=
  match LoadInt32 lock kl with
  | Some v => if v =? old then (true, StoreInt32 lock new kl) else (false, kl)
  | None => (false, kl)
  end.

(** [atomic.AddInt32(&kl.count, delta)]. *)
Definition AddInt32_count (delta : Z) (kl : KeyLock) : KeyLock :=
  set_count (int32 (count kl + delta)) kl.

(** [kl.locks.LoadOrStore(key, new(spinLock))]: the cell already registered
    for [key], else a fresh zero cell, which is registered.  The cell that
    [new] allocates when the key is present is dropped at once and is not
    represented. *)
Definition LoadOrStore (key : string) (kl : KeyLock) : loc * KeyLock :=
  match locks kl !! key with
  | Some lock => (lock, kl)
  | None =>
      let lock := length (cells kl) in
      (lock, mkKeyLock (<[key := lock]> (locks kl)) (cells kl ++ [0])
                       (count kl) (maxSpins kl))
  end.

(** ** The methods *)

Definition TryLock (key : string) (kl : KeyLock) : bool * KeyLock :=
  let '(lock, kl1) := LoadOrStore key kl in
  let '(swapped, kl2) := CompareAndSwapInt32 lock 0 1 kl1 in
  if swapped then (true, AddInt32_count 1 kl2) else (false, kl2).

Definition Unlock (key : string) (kl : KeyLock) : KeyLock :=
  match locks kl !! key with
  | Some lock => AddInt32_count (-1) (StoreInt32 lock 0 kl)
  | None => kl
  end.

(** [int(atomic.LoadInt32(&kl.count))]: the conversion keeps the value. *)
Definition Size (kl : KeyLock) : Z := count kl.

(** The callback [Cleanup] hands to [Range]: delete the visited key when its
    cell reads zero. *)
Definition Cleanup_visit (kl : KeyLock) (m : gmap string loc)
    (entry : string * loc) : gmap string loc :=
  match LoadInt32 entry.2 kl with
  | Some 0 => delete entry.1 m
  | _ => m
  end.

(** [Cleanup]: [Range] visits every entry of the registry once. *)
Definition Cleanup (kl : KeyLock) : KeyLock :=
  set_locks (foldl (Cleanup_visit kl) (locks kl) (map_to_list (locks kl))) kl.

(** ** [Lock] and its waiting loop *)

(** What one failed attempt of the loop does. *)
Record Wait := mkWait {
  w_backoff : Z;   (* backoff when the compare-and-swap failed *)
  w_yields : nat;  (* calls of runtime.Gosched in [for range backoff] *)
  w_next : Z       (* backoff after [if backoff < maxSpins { backoff <<= 1 }] *)
}.

(** [for range backoff { runtime.Gosched() }]: the number of calls. *)
Definition Gosched_calls (backoff : Z) : nat := Z.to_nat backoff.

(** [if backoff < int(kl.maxSpins) { backoff <<= 1 }]. *)
Definition next_backoff (backoff : Z) (kl : KeyLock) : Z :=
  if backoff <? maxSpins kl then int (Z.shiftl backoff 1) else backoff.

(** The loop of [Lock].  While the goroutine yields, the other goroutines
    act on the manager: [env] gives, for each wait in turn, what they do.
    When [env] is used up and the cell is still taken the goroutine is
    left waiting ([false]). *)
Fixpoint Lock_loop (env : list (KeyLock → KeyLock)) (lock : loc) (backoff : Z)
    (kl : KeyLock) : bool * KeyLock * list Wait :=
  let '(swapped, kl1) := CompareAndSwapInt32 lock 0 1 kl in
  if swapped then (true, AddInt32_count 1 kl1, [])
  else
    match env with
    | [] => (false, kl1, [])
    | others :: env' =>
        let kl2 := others kl1 in
        let backoff' := next_backoff backoff kl2 in
        let '(acquired, kl3, waits) := Lock_loop env' lock backoff' kl2 in
        (acquired, kl3, mkWait backoff (Gosched_calls backoff) backoff' :: waits)
    end.

Definition Lock_with (env : list (KeyLock → KeyLock)) (key : string)
    (kl : KeyLock) : bool * KeyLock * list Wait :=
  let '(lock, kl1) := LoadOrStore key kl in
  Lock_loop env lock 1 kl1.

(** What another goroutine may do during a wait.  Its own [Lock], once it
    gets the cell, acts as a successful [TryLock]. *)
Inductive Other :=
| OTryLock (key : string)
| OUnlock (key : string)
| OCleanup.

Definition other_step (o : Other) (kl : KeyLock) : KeyLock :=
  match o with
  | OTryLock key => (TryLock key kl).2
  | OUnlock key => Unlock key kl
  | OCleanup => Cleanup kl
  end.

Definition others_run (os : list Other) (kl : KeyLock) : KeyLock :=
  foldl (λ s o, other_step o s) kl os.

(** [Lock] when no other goroutine runs: [fuel] bounds the waits. *)
Definition Lock (fuel : nat) (key : string) (kl : KeyLock) : option KeyLock :=
  let '(acquired, kl', _) := Lock_with (replicate fuel (λ s, s)) key kl in
  if acquired then Some kl' else None.

(** ** Sequences of calls *)

Inductive Call :=
| CLock (key : string)
| CTryLock (key : string)
| CUnlock (key : string)
| CSize
| CCleanup.

(** One call made while no other call is in progress; [None] when the call
    does not return. *)
Definition exec (fuel : nat) (c : Call) (kl : KeyLock) : option KeyLock :=
  match c with
  | CLock key => Lock fuel key kl
  | CTryLock key => Some (TryLock key kl).2
  | CUnlock key => Some (Unlock key kl)
  | CSize => Some kl
  | CCleanup => Some (Cleanup kl)
  end.

Fixpoint run (fuel : nat) (cs : list Call) (kl : KeyLock) : option KeyLock :=
  match cs with
  | [] => Some kl
  | c :: cs' =>
      match exec fuel c kl with
      | Some kl' => run fuel cs' kl'
      | None => None
      end
  end.

(** The managers a program can hold between two calls. *)
Inductive reachable : KeyLock → Prop :=
| reach_New : reachable New
| reach_WithMaxSpins max kl :
    in_int32 max → reachable kl → reachable (WithMaxSpins max kl)
| reach_exec fuel c kl kl' :
    reachable kl → exec fuel c kl = Some kl' → reachable kl'.

(** The cell of [key] reads [v]. *)
Definition cell_is (key : string) (v : Z) (kl : KeyLock) : Prop :=
  ∃ lock, locks kl !! key = Some lock ∧ LoadInt32 lock kl = Some v.

(** The number of registered cells that read 1 (Locked). *)
Definition locked_cells (kl : KeyLock) : nat :=
  size (filter (λ e : string * loc, LoadInt32 e.2 kl = Some 1) (locks kl)).

(** ** Consistency of a manager *)

(** What holds of every manager between two calls: pointers of the registry
    designate cells, two keys never share a cell, a cell reads 0 or 1, a
    cell that reads 1 is registered, and the two [int32] fields are in
    range. *)
Record wf (kl : KeyLock) : Prop := mk_wf {
  wf_bound : ∀ key lock, locks kl !! key = Some lock →
             (lock < length (cells kl))%nat;
  wf_inj : ∀ k1 k2 lock, locks kl !! k1 = Some lock →
           locks kl !! k2 = Some lock → k1 = k2;
  wf_bit : ∀ lock v, cells kl !! lock = Some v → v = 0 ∨ v = 1;
  wf_owned : ∀ lock, cells kl !! lock = Some 1 →
             ∃ key, locks kl !! key = Some lock;
  wf_count : in_int32 (count kl);
  wf_maxSpins : in_int32 (maxSpins kl)
}.

(** ** Balanced sequences of [Lock] and [Unlock] *)

(** The keys held after a call of a balanced sequence. *)
Definition held_step (c : Call) (held : gset string) : gset string :=
  match c with
  | CLock key => {[key]} ∪ held
  | CUnlock key => held ∖ {[key]}
  | _ => held
  end.

(** A sequence of [Lock(k)]/[Unlock(k)] pairs, in the order in which the
    calls take effect: a key is locked only while nobody holds it, unlocked
    only by its holder, and in the end no key is held. *)
Fixpoint balanced_from (held : gset string) (cs : list Call) : bool :=
  match cs with
  | [] => bool_decide (held = ∅)
  | c :: cs' =>
      match c with
      | CLock key => bool_decide (key ∉ held)
      | CUnlock key => bool_decide (key ∈ held)
      | _ => false
      end && balanced_from (held_step c held) cs'
  end.

Definition balanced (cs : list Call) : bool := balanced_from ∅ cs.

(** The largest number of keys held at once along the sequence. *)
Fixpoint max_held_from (held : gset string) (cs : list Call) : nat :=
  match cs with
  | [] => size held
  | c :: cs' => Nat.max (size held) (max_held_from (held_step c held) cs')
  end.

Definition max_held (cs : list Call) : nat := max_held_from ∅ cs.

(** Pairwise distinct keys, and the sequence that locks [n] of them and
    then unlocks them. *)
Fixpoint key_of (n : nat) : string :=
  match n with
  | O => EmptyString
  | S m => String "k"%char (key_of m)
  end.

Definition lock_from (a n : nat) : list Call :=
  (λ i, CLock (key_of i)) <$> seq a n.

Definition unlock_from (a n : nat) : list Call :=
  (λ i, CUnlock (key_of i)) <$> seq a n.

Definition lock_all (n : nat) : list Call := lock_from 0 n.

Definition unlock_all (n : nat) : list Call := unlock_from 0 n.

(** The keys held once all the calls of [cs] have been made. *)
Definition held_after (held : gset string) (cs : list Call) : gset string :=
  foldl (λ h c, held_step c h) held cs.

(** [held] is the set of keys whose cell reads Locked and the counter is
    its size, as an [int32]. *)
Definition holds (held : gset string) (kl : KeyLock) : Prop :=
  wf kl ∧
  (∀ key, key ∈ held ↔ cell_is key 1 kl) ∧
  count kl = int32 (Z.of_nat (size held)).

(** The keys [key_of a], ..., [key_of (a + n - 1)]. *)
Definition keys_from (a n : nat) : gset string :=
  list_to_set (key_of <$> seq a n).

(** One key more than the largest value of an [int32]. *)
Definition int32_keys : nat := Z.to_nat (2 ^ 31).

(** The keys that the calls of [cs] try to acquire. *)
Fixpoint requested_keys (cs : list Call) : gset string :=
  match cs with
  | [] => ∅
  | CLock key :: cs' | CTryLock key :: cs' => {[key]} ∪ requested_keys cs'
  | _ :: cs' => requested_keys cs'
  end.

(** * Properties *)

(** ** The scenarios of the test suite *)

Example run_basic :
  Size New = 0 ∧
  Size <$> run 0 [CLock "test1"] New = Some 1 ∧
  Size <$> run 0 [CLock "test1"; CUnlock "test1"] New = Some 0.
Proof. repeat split; vm_compute; reflexivity. Qed.

Example run_multiple_keys :
  Size <$> run 0 [CLock "test1"; CLock "test2"; CLock "test3"] New = Some 3 ∧
  Size <$> run 0 [CLock "test1"; CLock "test2"; CLock "test3";
                  CUnlock "test1"] New = Some 2 ∧
  Size <$> run 0 [CLock "test1"; CLock "test2"; CLock "test3";
                  CUnlock "test1"; CUnlock "test2"; CUnlock "test3"] New
    = Some 0.
Proof. repeat split; vm_compute; reflexivity. Qed.

Example run_nested :
  Size <$> run 0 [CLock "outer"; CLock "inner"] New = Some 2 ∧
  Size <$> run 0 [CLock "outer"; CLock "inner"; CUnlock "inner"] New = Some 1 ∧
  Size <$> run 0 [CLock "outer"; CLock "inner"; CUnlock "inner";
                  CUnlock "outer"] New = Some 0.
Proof. repeat split; vm_compute; reflexivity. Qed.

Example run_unlock_nonexistent : Size (Unlock "nonexistent" New) = 0.
Proof. reflexivity. Qed.

(** A second [Lock] of a held key waits as long as the holder keeps it, and
    gets it once the holder has called [Unlock]. *)
Example second_Lock_waits :
  (Lock_with [λ s, s; λ s, s; λ s, s] "test1" (TryLock "test1" New).2).1.1
    = false ∧
  run 5 [CLock "test1"; CLock "test1"] New = None ∧
  (Lock_with [λ s, s; Unlock "test1"] "test1" (TryLock "test1" New).2).1.1
    = true ∧
  Size (Unlock "test1"
          (Lock_with [λ s, s; Unlock "test1"] "test1"
                     (TryLock "test1" New).2).1.2) = 0.
Proof. repeat split; vm_compute; reflexivity. Qed.

(** ** Machine integers: basic facts *)

Lemma int32_id z : in_int32 z → int32 z = z.
Proof.
  unfold in_int32, int32, wrap. intros H.
  change (2 ^ (32 - 1)) with (2 ^ 31). rewrite Z.mod_small; lia.
Qed.

Lemma int32_range z : in_int32 (int32 z).
Proof.
  unfold in_int32, int32, wrap. change (2 ^ (32 - 1)) with (2 ^ 31).
  pose proof (Z.mod_pos_bound (z + 2 ^ 31) (2 ^ 32)). lia.
Qed.

Lemma int_id z : - 2 ^ 63 <= z < 2 ^ 63 → int z = z.
Proof.
  unfold int, wrap. intros H.
  change (2 ^ (64 - 1)) with (2 ^ 63). rewrite Z.mod_small; lia.
Qed.

(** ** Equations of the methods *)

Lemma TryLock_absent key kl :
  locks kl !! key = None →
  TryLock key kl =
    (true, mkKeyLock (<[key := length (cells kl)]> (locks kl)) (cells kl ++ [1])
                     (int32 (count kl + 1)) (maxSpins kl)).
Proof.
  intros H. unfold TryLock, LoadOrStore. rewrite H.
  unfold CompareAndSwapInt32, LoadInt32. cbn [cells].
  rewrite lookup_app_r by lia. rewrite Nat.sub_diag. cbn.
  unfold AddInt32_count, StoreInt32, set_cells, set_count. cbn.
  rewrite insert_app_r_alt by lia. rewrite Nat.sub_diag. reflexivity.
Qed.

Lemma TryLock_free key lock kl :
  locks kl !! key = Some lock → cells kl !! lock = Some 0 →
  TryLock key kl =
    (true, mkKeyLock (locks kl) (<[lock := 1]> (cells kl))
                     (int32 (count kl + 1)) (maxSpins kl)).
Proof.
  intros H H0. unfold TryLock, LoadOrStore. rewrite H.
  unfold CompareAndSwapInt32, LoadInt32. rewrite H0. reflexivity.
Qed.

Lemma TryLock_taken key lock v kl :
  locks kl !! key = Some lock → cells kl !! lock = Some v → v ≠ 0 →
  TryLock key kl = (false, kl).
Proof.
  intros H H0 Hv. unfold TryLock, LoadOrStore. rewrite H.
  unfold CompareAndSwapInt32, LoadInt32. rewrite H0.
  destruct (Z.eqb_spec v 0); [lia | reflexivity].
Qed.

Lemma TryLock_dangling key lock kl :
  locks kl !! key = Some lock → cells kl !! lock = None →
  TryLock key kl = (false, kl).
Proof.
  intros H H0. unfold TryLock, LoadOrStore. rewrite H.
  unfold CompareAndSwapInt32, LoadInt32. rewrite H0. reflexivity.
Qed.

Lemma Unlock_present key lock kl :
  locks kl !! key = Some lock →
  Unlock key kl =
    mkKeyLock (locks kl) (<[lock := 0]> (cells kl))
              (int32 (count kl + -1)) (maxSpins kl).
Proof. intros H. unfold Unlock. rewrite H. reflexivity. Qed.

Lemma Unlock_absent key kl : locks kl !! key = None → Unlock key kl = kl.
Proof. intros H. unfold Unlock. rewrite H. reflexivity. Qed.

(** ** [Lock] when nothing else runs *)

Lemma CompareAndSwapInt32_fail lock old new kl :
  (CompareAndSwapInt32 lock old new kl).1 = false →
  (CompareAndSwapInt32 lock old new kl).2 = kl.
Proof.
  unfold CompareAndSwapInt32. destruct (LoadInt32 lock kl) as [v|]; [|done].
  destruct (v =? old); [discriminate | done].
Qed.

Lemma Lock_loop_idle fuel lock backoff kl :
  (CompareAndSwapInt32 lock 0 1 kl).1 = false →
  (Lock_loop (replicate fuel (λ s, s)) lock backoff kl).1 = (false, kl).
Proof.
  revert backoff. induction fuel as [|fuel IH]; intros backoff Hcas;
    pose proof (CompareAndSwapInt32_fail _ _ _ _ Hcas) as Hsame; cbn;
    destruct (CompareAndSwapInt32 lock 0 1 kl) as [swapped kl1];
    cbn in Hcas, Hsame; subst swapped kl1; [done|].
  specialize (IH (next_backoff backoff kl)).
  destruct (Lock_loop _ _ _ _) as [[acquired kl3] waits].
  cbn in *. apply IH.
  destruct (CompareAndSwapInt32 lock 0 1 kl) as [s k] eqn:E.
  cbn in *. congruence.
Qed.

(** Alone, [Lock] returns exactly when [TryLock] succeeds, with the same
    effect; otherwise it waits for ever. *)
Lemma Lock_alone fuel key kl :
  Lock fuel key kl =
    (if (TryLock key kl).1 then Some (TryLock key kl).2 else None).
Proof.
  unfold Lock, Lock_with, TryLock.
  destruct (LoadOrStore key kl) as [lock kl1].
  destruct (CompareAndSwapInt32 lock 0 1 kl1) as [swapped kl2] eqn:E.
  destruct swapped.
  - destruct fuel; cbn; rewrite E; reflexivity.
  - pose proof (Lock_loop_idle fuel lock 1 kl1) as H. rewrite E in H.
    specialize (H eq_refl).
    destruct (Lock_loop _ _ _ _) as [[acquired kl3] waits].
    cbn in *. inversion H. reflexivity.
Qed.

(** ** The consistency invariant *)

Lemma wf_New : wf New.
Proof.
  split; cbn; try done; unfold in_int32, defaultMaxSpins; lia.
Qed.

Lemma wf_WithMaxSpins max kl : in_int32 max → wf kl → wf (WithMaxSpins max kl).
Proof. intros Hm [? ? ? ? ? ?]. split; cbn; done. Qed.

Lemma wf_TryLock key kl : wf kl → wf (TryLock key kl).2.
Proof.
  intros [Hb Hi Hbit Ho Hc Hm].
  destruct (locks kl !! key) as [lock|] eqn:Hk.
  - destruct (cells kl !! lock) as [v|] eqn:Hv.
    + destruct (decide (v = 0)) as [->|Hne].
      * rewrite (TryLock_free _ _ _ Hk Hv). split; cbn.
        -- intros k l Hl. rewrite length_insert. eauto.
        -- done.
        -- intros l v Hl. destruct (decide (l = lock)) as [->|Hne].
           ++ rewrite list_lookup_insert_eq in Hl by eauto.
              inversion Hl; auto.
           ++ rewrite list_lookup_insert_ne in Hl by done. eauto.
        -- intros l Hl. destruct (decide (l = lock)) as [->|Hne]; [eauto|].
           rewrite list_lookup_insert_ne in Hl by done. eauto.
        -- apply int32_range.
        -- done.
      * rewrite (TryLock_taken _ _ _ _ Hk Hv Hne). by split.
    + rewrite (TryLock_dangling _ _ _ Hk Hv). by split.
  - rewrite (TryLock_absent _ _ Hk). split; cbn.
    + intros k l Hl. rewrite length_app. cbn.
      destruct (decide (k = key)) as [->|Hne].
      * rewrite lookup_insert_eq in Hl. inversion Hl. lia.
      * rewrite lookup_insert_ne in Hl by done. apply Hb in Hl. lia.
    + intros k1 k2 l H1 H2.
      destruct (decide (k1 = key)) as [->|Hn1];
        destruct (decide (k2 = key)) as [->|Hn2]; try done.
      * rewrite lookup_insert_eq in H1. rewrite lookup_insert_ne in H2 by done.
        inversion H1; subst. apply Hb in H2. lia.
      * rewrite lookup_insert_eq in H2. rewrite lookup_insert_ne in H1 by done.
        inversion H2; subst. apply Hb in H1. lia.
      * rewrite lookup_insert_ne in H1, H2 by done. eauto.
    + intros l v Hl. apply lookup_app_Some in Hl as [Hl|[_ Hl]]; [eauto|].
      apply list_lookup_singleton_Some in Hl as [_ <-]. auto.
    + intros l Hl. apply lookup_app_Some in Hl as [Hl|[Hge Hl]].
      * destruct (Ho _ Hl) as [k Hk']. exists k.
        rewrite lookup_insert_ne; [done|]. intros ->. congruence.
      * apply list_lookup_singleton_Some in Hl as [Hz _].
        exists key. replace l with (length (cells kl)) by lia.
        apply lookup_insert_eq.
    + apply int32_range.
    + done.
Qed.

Lemma wf_Unlock key kl : wf kl → wf (Unlock key kl).
Proof.
  intros [Hb Hi Hbit Ho Hc Hm].
  destruct (locks kl !! key) as [lock|] eqn:Hk.
  - rewrite (Unlock_present _ _ _ Hk). split; cbn.
    + intros k l Hl. rewrite length_insert. eauto.
    + done.
    + intros l v Hl. destruct (decide (l = lock)) as [->|Hne].
      * rewrite list_lookup_insert_eq in Hl by eauto. inversion Hl; auto.
      * rewrite list_lookup_insert_ne in Hl by done. eauto.
    + intros l Hl. destruct (decide (l = lock)) as [->|Hne]; [eauto|].
      rewrite list_lookup_insert_ne in Hl by done. eauto.
    + apply int32_range.
    + done.
  - rewrite (Unlock_absent _ _ Hk). by split.
Qed.

(** ** [Cleanup] *)

Section Cleanup_fold.
Variable kl : KeyLock.

Lemma Cleanup_visit_gone m entry key :
  m !! key = None → Cleanup_visit kl m entry !! key = None.
Proof.
  intros H. unfold Cleanup_visit.
  destruct (LoadInt32 entry.2 kl) as [[| |]|]; try done.
  destruct (decide (entry.1 = key)) as [->|Hne].
  - apply lookup_delete_eq.
  - by rewrite lookup_delete_ne.
Qed.

Lemma Cleanup_fold_gone entries m key :
  m !! key = None → foldl (Cleanup_visit kl) m entries !! key = None.
Proof.
  revert m. induction entries as [|e entries IH]; intros m H; cbn; [done|].
  apply IH, Cleanup_visit_gone, H.
Qed.

Lemma Cleanup_fold_removed entries m key lock :
  (key, lock) ∈ entries → LoadInt32 lock kl = Some 0 →
  foldl (Cleanup_visit kl) m entries !! key = None.
Proof.
  revert m. induction entries as [|e entries IH]; intros m Hin H0.
  - by apply elem_of_nil in Hin.
  - cbn. apply elem_of_cons in Hin as [<-|Hin]; [|by apply IH].
    apply Cleanup_fold_gone. unfold Cleanup_visit. cbn [fst snd]. rewrite H0.
    apply lookup_delete_eq.
Qed.

Lemma Cleanup_fold_kept entries m key :
  (∀ lock, (key, lock) ∈ entries → LoadInt32 lock kl ≠ Some 0) →
  foldl (Cleanup_visit kl) m entries !! key = m !! key.
Proof.
  revert m. induction entries as [|e entries IH]; intros m H; cbn; [done|].
  rewrite IH by (intros l Hl; apply H; by right).
  unfold Cleanup_visit. destruct e as [k l]. cbn [fst snd].
  destruct (LoadInt32 l kl) as [[| |]|] eqn:E; try done.
  destruct (decide (k = key)) as [->|Hne]; [|by rewrite lookup_delete_ne].
  exfalso. apply (H l); [by left | done].
Qed.
End Cleanup_fold.

Lemma Cleanup_lookup_unlocked kl key lock :
  locks kl !! key = Some lock → LoadInt32 lock kl = Some 0 →
  locks (Cleanup kl) !! key = None.
Proof.
  intros Hk H0. unfold Cleanup. cbn.
  apply (Cleanup_fold_removed kl _ _ key lock); [|done].
  by apply elem_of_map_to_list.
Qed.

Lemma Cleanup_lookup_other kl key :
  (∀ lock, locks kl !! key = Some lock → LoadInt32 lock kl ≠ Some 0) →
  locks (Cleanup kl) !! key = locks kl !! key.
Proof.
  intros H. unfold Cleanup. cbn. apply Cleanup_fold_kept.
  intros lock Hin. apply H. by apply elem_of_map_to_list.
Qed.

Lemma Cleanup_filter kl :
  locks (Cleanup kl) =
    filter (λ e : string * nat, LoadInt32 e.2 kl ≠ Some 0) (locks kl).
Proof.
  apply map_eq. intros key.
  destruct (locks kl !! key) as [lock|] eqn:Hk.
  - destruct (decide (LoadInt32 lock kl = Some 0)) as [H0|Hn].
    + rewrite (Cleanup_lookup_unlocked _ _ _ Hk H0). symmetry.
      apply map_lookup_filter_None. right. intros l Hl. cbn.
      rewrite Hk in Hl. inversion Hl; subst. tauto.
    + rewrite Cleanup_lookup_other by (intros l Hl; congruence).
      rewrite Hk. symmetry. apply map_lookup_filter_Some. by split.
  - rewrite Cleanup_lookup_other by (intros l Hl; congruence).
    rewrite Hk. symmetry. apply map_lookup_filter_None. by left.
Qed.

Lemma Cleanup_lookup_Some kl key lock :
  locks (Cleanup kl) !! key = Some lock →
  locks kl !! key = Some lock ∧ LoadInt32 lock kl ≠ Some 0.
Proof. rewrite Cleanup_filter. intros H. by apply map_lookup_filter_Some in H. Qed.

Lemma wf_Cleanup kl : wf kl → wf (Cleanup kl).
Proof.
  intros [Hb Hi Hbit Ho Hc Hm]. split; try done.
  - intros k l Hl. apply Cleanup_lookup_Some in Hl as [Hl _]. cbn. eauto.
  - intros k1 k2 l H1 H2. apply Cleanup_lookup_Some in H1 as [H1 _].
    apply Cleanup_lookup_Some in H2 as [H2 _]. eauto.
  - intros l Hl. cbn in Hl. destruct (Ho _ Hl) as [k Hk]. exists k.
    rewrite Cleanup_lookup_other; [done|].
    intros l' Hl'. unfold LoadInt32. congruence.
Qed.

Lemma wf_exec fuel c kl kl' : wf kl → exec fuel c kl = Some kl' → wf kl'.
Proof.
  intros Hwf. destruct c as [key|key|key| |]; cbn.
  - rewrite Lock_alone. destruct (TryLock key kl).1 eqn:E; [|done].
    intros [= <-]. by apply wf_TryLock.
  - intros [= <-]. by apply wf_TryLock.
  - intros [= <-]. by apply wf_Unlock.
  - by intros [= <-].
  - intros [= <-]. by apply wf_Cleanup.
Qed.

Lemma reachable_wf kl : reachable kl → wf kl.
Proof.
  induction 1 as [|max kl Hm _ IH|fuel c kl kl' _ IH Hex].
  - apply wf_New.
  - by apply wf_WithMaxSpins.
  - by apply (wf_exec fuel c kl).
Qed.

(** ** What a call does to the cell of a key *)

Lemma TryLock_true_cell key kl :
  (TryLock key kl).1 = true → cell_is key 1 (TryLock key kl).2.
Proof.
  destruct (locks kl !! key) as [lock|] eqn:Hk.
  - destruct (cells kl !! lock) as [v|] eqn:Hv.
    + destruct (decide (v = 0)) as [->|Hne].
      * rewrite (TryLock_free _ _ _ Hk Hv). intros _. exists lock. cbn.
        split; [done|]. unfold LoadInt32. cbn.
        apply list_lookup_insert_eq. by eapply lookup_lt_Some.
      * by rewrite (TryLock_taken _ _ _ _ Hk Hv Hne).
    + by rewrite (TryLock_dangling _ _ _ Hk Hv).
  - rewrite (TryLock_absent _ _ Hk). intros _. exists (length (cells kl)). cbn.
    split; [apply lookup_insert_eq|]. unfold LoadInt32. cbn.
    rewrite lookup_app_r by lia. by rewrite Nat.sub_diag.
Qed.

Lemma TryLock_false_same key kl :
  (TryLock key kl).1 = false → (TryLock key kl).2 = kl.
Proof.
  destruct (locks kl !! key) as [lock|] eqn:Hk.
  - destruct (cells kl !! lock) as [v|] eqn:Hv.
    + destruct (decide (v = 0)) as [->|Hne].
      * by rewrite (TryLock_free _ _ _ Hk Hv).
      * by rewrite (TryLock_taken _ _ _ _ Hk Hv Hne).
    + by rewrite (TryLock_dangling _ _ _ Hk Hv).
  - by rewrite (TryLock_absent _ _ Hk).
Qed.

Lemma TryLock_held key kl : cell_is key 1 kl → TryLock key kl = (false, kl).
Proof. intros (lock & Hk & Hv). by apply (TryLock_taken key lock 1). Qed.

(** A call on another key leaves the cell of [key] as it is. *)
Lemma TryLock_other key key' v kl :
  wf kl → key' ≠ key → cell_is key v kl → cell_is key v (TryLock key' kl).2.
Proof.
  intros Hwf Hne (lock & Hk & Hv). unfold LoadInt32 in Hv.
  destruct (locks kl !! key') as [lock'|] eqn:Hk'.
  - destruct (cells kl !! lock') as [v'|] eqn:Hv'.
    + destruct (decide (v' = 0)) as [->|Hn0].
      * rewrite (TryLock_free _ _ _ Hk' Hv'). exists lock. split; [done|].
        unfold LoadInt32. cbn. rewrite list_lookup_insert_ne; [done|].
        intros ->. apply Hne. by eapply (wf_inj kl Hwf).
      * rewrite (TryLock_taken _ _ _ _ Hk' Hv' Hn0). by exists lock.
    + rewrite (TryLock_dangling _ _ _ Hk' Hv'). by exists lock.
  - rewrite (TryLock_absent _ _ Hk'). exists lock. cbn. split.
    + by rewrite lookup_insert_ne.
    + unfold LoadInt32. cbn. rewrite lookup_app_l; [done|].
      by eapply lookup_lt_Some.
Qed.

Lemma Unlock_other key key' v kl :
  wf kl → key' ≠ key → cell_is key v kl → cell_is key v (Unlock key' kl).
Proof.
  intros Hwf Hne (lock & Hk & Hv). unfold LoadInt32 in Hv.
  destruct (locks kl !! key') as [lock'|] eqn:Hk'.
  - rewrite (Unlock_present _ _ _ Hk'). exists lock. split; [done|].
    unfold LoadInt32. cbn. rewrite list_lookup_insert_ne; [done|].
    intros ->. apply Hne. by eapply (wf_inj kl Hwf).
  - rewrite (Unlock_absent _ _ Hk'). by exists lock.
Qed.

Lemma Unlock_cell key v kl : cell_is key v kl → cell_is key 0 (Unlock key kl).
Proof.
  intros (lock & Hk & Hv). rewrite (Unlock_present _ _ _ Hk).
  exists lock. split; [done|]. unfold LoadInt32. cbn.
  apply list_lookup_insert_eq. by eapply lookup_lt_Some.
Qed.

Lemma Cleanup_held key v kl :
  v ≠ 0 → cell_is key v kl → cell_is key v (Cleanup kl).
Proof.
  intros Hv (lock & Hk & Hl). exists lock. split; [|done].
  rewrite Cleanup_lookup_other; [done|].
  intros l Hl'. rewrite Hk in Hl'. inversion Hl'; subst. rewrite Hl.
  intros [= ->]. done.
Qed.

(** A held cell stays held until [Unlock] is called on its key. *)
Lemma exec_held fuel c key kl kl' :
  wf kl → c ≠ CUnlock key → cell_is key 1 kl →
  exec fuel c kl = Some kl' → cell_is key 1 kl'.
Proof.
  intros Hwf Hc Hheld. destruct c as [k|k|k| |]; cbn.
  - rewrite Lock_alone. destruct (TryLock k kl).1 eqn:E; [|done].
    intros [= <-]. destruct (decide (k = key)) as [->|Hne].
    + rewrite (TryLock_held _ _ Hheld) in E. done.
    + by apply TryLock_other.
  - intros [= <-]. destruct (decide (k = key)) as [->|Hne].
    + by rewrite (TryLock_held _ _ Hheld).
    + by apply TryLock_other.
  - intros [= <-]. apply Unlock_other; [done| |done]. congruence.
  - by intros [= <-].
  - intros [= <-]. by apply Cleanup_held.
Qed.

Lemma run_held fuel cs key kl kl' :
  wf kl → CUnlock key ∉ cs → cell_is key 1 kl →
  run fuel cs kl = Some kl' → cell_is key 1 kl'.
Proof.
  revert kl. induction cs as [|c cs IH]; intros kl Hwf Hcs Hheld; cbn.
  - by intros [= <-].
  - destruct (exec fuel c kl) as [kl1|] eqn:E; [|done].
    apply not_elem_of_cons in Hcs as [Hc Hcs]. apply IH; [|done|].
    + by eapply wf_exec.
    + eapply exec_held; eauto.
Qed.

Lemma LoadOrStore_cell key kl :
  (TryLock key kl).1 = true ↔ cell_is key 0 (LoadOrStore key kl).2.
Proof.
  unfold LoadOrStore. destruct (locks kl !! key) as [lock|] eqn:Hk; cbn.
  - destruct (cells kl !! lock) as [v|] eqn:Hv.
    + destruct (decide (v = 0)) as [->|Hne].
      * rewrite (TryLock_free _ _ _ Hk Hv). split; [|done]. by exists lock.
      * rewrite (TryLock_taken _ _ _ _ Hk Hv Hne). split; [done|].
        intros (l & Hl & Hl0). unfold LoadInt32 in Hl0. congruence.
    + rewrite (TryLock_dangling _ _ _ Hk Hv). split; [done|].
      intros (l & Hl & Hl0). unfold LoadInt32 in Hl0. congruence.
  - rewrite (TryLock_absent _ _ Hk). split; [|done]. intros _.
    exists (length (cells kl)). cbn. split; [apply lookup_insert_eq|].
    unfold LoadInt32. cbn. rewrite lookup_app_r by lia.
    by rewrite Nat.sub_diag.
Qed.

Lemma TryLock_true_count key kl :
  (TryLock key kl).1 = true → count (TryLock key kl).2 = int32 (count kl + 1).
Proof.
  destruct (locks kl !! key) as [lock|] eqn:Hk.
  - destruct (cells kl !! lock) as [v|] eqn:Hv.
    + destruct (decide (v = 0)) as [->|Hne].
      * by rewrite (TryLock_free _ _ _ Hk Hv).
      * by rewrite (TryLock_taken _ _ _ _ Hk Hv Hne).
    + by rewrite (TryLock_dangling _ _ _ Hk Hv).
  - by rewrite (TryLock_absent _ _ Hk).
Qed.

(** C3. [TryLock(key)] is one compare-and-swap on the cell that
    [LoadOrStore] gives for the key.  It returns true exactly when that cell
    (the registered one, or the fresh one of an unregistered key) reads
    Unlocked; the cell then reads Locked and the counter has been
    incremented by [atomic.AddInt32], that is by one unless the counter was
    at the top of [int32].  When it returns false the manager is unchanged,
    counter included; this is the case whenever the cell of the key reads
    Locked, and so from a successful acquisition until [Unlock] is called on
    the key. *)
Theorem TryLock_single_compare_and_swap (key : string) (kl : KeyLock) :
  ((TryLock key kl).1 = true ↔ cell_is key 0 (LoadOrStore key kl).2) ∧
  ((TryLock key kl).1 = true →
     cell_is key 1 (TryLock key kl).2 ∧
     count (TryLock key kl).2 = int32 (count kl + 1) ∧
     (- 2 ^ 31 <= count kl < 2 ^ 31 - 1 →
      count (TryLock key kl).2 = count kl + 1)) ∧
  ((TryLock key kl).1 = false →
     (TryLock key kl).2 = kl ∧ count (TryLock key kl).2 = count kl) ∧
  (cell_is key 1 kl → TryLock key kl = (false, kl)) ∧
  (∀ fuel cs kl',
     reachable kl → cell_is key 1 kl → CUnlock key ∉ cs →
     run fuel cs kl = Some kl' → TryLock key kl' = (false, kl')).
Proof.
  split; [apply LoadOrStore_cell|].
  split; [|split; [|split]].
  - intros Ht. split; [by apply TryLock_true_cell|].
    rewrite (TryLock_true_count _ _ Ht). split; [done|].
    intros Hc. apply int32_id. unfold in_int32. lia.
  - intros Hf. by rewrite (TryLock_false_same _ _ Hf).
  - apply TryLock_held.
  - intros fuel cs kl' Hr Hheld Hcs Hrun. apply TryLock_held.
    eapply run_held; eauto. by apply reachable_wf.
Qed.

Lemma TryLock_single_compare_and_swap_witness :
  TryLock "a" New =
    (true, mkKeyLock {["a" := 0%nat]} [1] 1 defaultMaxSpins) ∧
  TryLock "a" (TryLock "a" New).2 = (false, (TryLock "a" New).2) ∧
  ∃ kl', run 0 [CTryLock "b"; CCleanup; CSize] (TryLock "a" New).2 = Some kl' ∧
         TryLock "a" kl' = (false, kl').
Proof.
  pose (kl := (TryLock "a" New).2).
  assert (Hheld : cell_is "a" 1 kl) by (exists 0%nat; split; reflexivity).
  assert (Hreach : reachable kl).
  { apply (reach_exec 0 (CTryLock "a") New); [apply reach_New | reflexivity]. }
  destruct (TryLock_single_compare_and_swap "a" kl) as (_ & _ & _ & Hb & Hc).
  split; [reflexivity|]. split; [exact (Hb Hheld)|].
  destruct (run 0 [CTryLock "b"; CCleanup; CSize] kl) as [kl'|] eqn:Hrun;
    [|discriminate].
  exists kl'. split; [exact Hrun|].
  apply (Hc 0%nat [CTryLock "b"; CCleanup; CSize] kl' Hreach Hheld); [|exact Hrun].
  intros Hin. repeat (apply elem_of_cons in Hin as [Hin|Hin]; [discriminate|]).
  by apply elem_of_nil in Hin.
Defined.

(** C6. [Cleanup] removes from the registry exactly the entries whose cell
    reads Unlocked when it is visited: what is left is the registry
    filtered on the other cells, an entry whose cell reads Locked is
    retained, and in a manager where no cell is held the registry is left
    empty.  The counter, hence [Size], and the cells are untouched. *)
Theorem Cleanup_removes_unlocked (kl : KeyLock) :
  locks (Cleanup kl) =
    filter (λ e : string * nat, LoadInt32 e.2 kl ≠ Some 0) (locks kl) ∧
  (∀ key, cell_is key 0 kl → locks (Cleanup kl) !! key = None) ∧
  (∀ key, cell_is key 1 kl → locks (Cleanup kl) !! key = locks kl !! key) ∧
  (reachable kl → (∀ key, ¬ cell_is key 1 kl) → locks (Cleanup kl) = ∅) ∧
  count (Cleanup kl) = count kl ∧
  Size (Cleanup kl) = Size kl ∧
  cells (Cleanup kl) = cells kl.
Proof.
  split; [apply Cleanup_filter|]. split; [|split; [|split]].
  - intros key (lock & Hk & Hv). by apply (Cleanup_lookup_unlocked kl key lock).
  - intros key (lock & Hk & Hv). apply Cleanup_lookup_other.
    intros l Hl. rewrite Hk in Hl. inversion Hl; subst. by rewrite Hv.
  - intros Hr Hnone. apply reachable_wf in Hr. apply map_eq. intros key.
    rewrite lookup_empty.
    destruct (locks kl !! key) as [lock|] eqn:Hk.
    + apply (Cleanup_lookup_unlocked kl key lock Hk).
      destruct (lookup_lt_is_Some_2 (cells kl) lock) as [v Hv];
        [by eapply (wf_bound kl Hr)|].
      destruct (wf_bit kl Hr _ _ Hv) as [->| ->]; [done|].
      exfalso. apply (Hnone key). by exists lock.
    + rewrite Cleanup_lookup_other; [done|]. intros l Hl. congruence.
  - done.
Qed.

Lemma Cleanup_removes_unlocked_witness :
  locks (Cleanup (Unlock "a" (TryLock "a" New).2)) = ∅ ∧
  locks (Cleanup (TryLock "b" (Unlock "a" (TryLock "a" New).2)).2) !! "a"
    = None ∧
  locks (Cleanup (TryLock "b" (Unlock "a" (TryLock "a" New).2)).2) !! "b"
    = Some 1%nat.
Proof.
  split; [|split].
  - apply (Cleanup_removes_unlocked (Unlock "a" (TryLock "a" New).2)).
    + apply (reach_exec 0 (CUnlock "a") (TryLock "a" New).2); [|reflexivity].
      apply (reach_exec 0 (CTryLock "a") New); [apply reach_New | reflexivity].
    + intros key (lock & _ & Hv). vm_compute in Hv.
      destruct lock as [|[|lock]]; discriminate.
  - apply (Cleanup_removes_unlocked
             (TryLock "b" (Unlock "a" (TryLock "a" New).2)).2).
    exists 0%nat. split; reflexivity.
  - etransitivity.
    + apply (Cleanup_removes_unlocked
               (TryLock "b" (Unlock "a" (TryLock "a" New).2)).2).
      exists 1%nat. split; reflexivity.
    + reflexivity.
Defined.

(** C7. [Unlock(key)] on a key without entry in the registry, never locked
    or evicted by [Cleanup], returns and changes nothing: no cell, not the
    counter.  On a fresh manager [Size] stays 0. *)
Theorem Unlock_unregistered_noop (key : string) (kl : KeyLock) :
  (locks kl !! key = None →
     Unlock key kl = kl ∧
     (∀ fuel, exec fuel (CUnlock key) kl = Some kl) ∧
     Size (Unlock key kl) = Size kl) ∧
  (cell_is key 0 kl → Unlock key (Cleanup kl) = Cleanup kl) ∧
  Unlock key New = New ∧
  Size (Unlock key New) = 0.
Proof.
  split; [|split; [|split]].
  - intros Hk. rewrite (Unlock_absent _ _ Hk). cbn.
    rewrite (Unlock_absent _ _ Hk). done.
  - intros (lock & Hk & Hv). apply Unlock_absent.
    by apply (Cleanup_lookup_unlocked kl key lock).
  - done.
  - done.
Qed.

Lemma Unlock_unregistered_noop_witness :
  Unlock "nonexistent" (TryLock "a" New).2 = (TryLock "a" New).2 ∧
  Unlock "a" (Cleanup (Unlock "a" (TryLock "a" New).2))
    = Cleanup (Unlock "a" (TryLock "a" New).2).
Proof.
  split.
  - destruct (Unlock_unregistered_noop "nonexistent" (TryLock "a" New).2)
      as (Ha & _).
    apply Ha. reflexivity.
  - destruct (Unlock_unregistered_noop "a" (Unlock "a" (TryLock "a" New).2))
      as (_ & Hb & _).
    apply Hb. exists 0%nat. split; reflexivity.
Defined.

Lemma TryLock_Unlock_cell key kl :
  (TryLock key kl).1 = true → cell_is key 0 (Unlock key (TryLock key kl).2).
Proof. intros Ht. apply TryLock_true_cell in Ht. by eapply Unlock_cell. Qed.

(** C8. Round trip: when [TryLock(k)] returns true, an [Unlock(k)] made at
    once leaves the cell of [k] Unlocked, and the next [TryLock(k)] returns
    true again. *)
Theorem TryLock_Unlock_roundtrip (key : string) (kl : KeyLock) :
  (TryLock key kl).1 = true →
  cell_is key 0 (Unlock key (TryLock key kl).2) ∧
  (TryLock key (Unlock key (TryLock key kl).2)).1 = true.
Proof.
  intros Ht. pose proof (TryLock_Unlock_cell _ _ Ht) as (lock & Hk & Hv).
  split; [by exists lock|]. by rewrite (TryLock_free _ _ _ Hk Hv).
Qed.

Lemma TryLock_Unlock_roundtrip_witness :
  (TryLock "a" New).1 = true ∧
  (TryLock "a" (Unlock "a" (TryLock "a" New).2)).1 = true.
Proof.
  split; [reflexivity|].
  apply (TryLock_Unlock_roundtrip "a" New). reflexivity.
Defined.

(** C10. [Unlock] never removes an entry of the registry: it leaves the
    registry as it is, so after [Lock(k)] and [Unlock(k)] the cell of [k] is
    still registered, now Unlocked.  No call but [Cleanup] removes an
    entry. *)
Theorem Unlock_keeps_registry (key : string) (kl : KeyLock) :
  locks (Unlock key kl) = locks kl ∧
  (∀ fuel kl1, Lock fuel key kl = Some kl1 → cell_is key 0 (Unlock key kl1)) ∧
  (∀ fuel c kl', c ≠ CCleanup → exec fuel c kl = Some kl' →
                 locks kl ⊆ locks kl') ∧
  (∀ max, locks (WithMaxSpins max kl) = locks kl).
Proof.
  split; [|split; [|split]].
  - unfold Unlock. by destruct (locks kl !! key).
  - intros fuel kl1. rewrite Lock_alone.
    destruct (TryLock key kl).1 eqn:Ht; [|done]. intros [= <-].
    by apply TryLock_Unlock_cell.
  - assert (Htl : ∀ k, locks kl ⊆ locks (TryLock k kl).2).
    { intros k. destruct (locks kl !! k) as [lock|] eqn:Hk.
      - destruct (cells kl !! lock) as [v|] eqn:Hv.
        + destruct (decide (v = 0)) as [->|Hne].
          * by rewrite (TryLock_free _ _ _ Hk Hv).
          * by rewrite (TryLock_taken _ _ _ _ Hk Hv Hne).
        + by rewrite (TryLock_dangling _ _ _ Hk Hv).
      - rewrite (TryLock_absent _ _ Hk). cbn. by apply insert_subseteq. }
    intros fuel c kl' Hc. destruct c as [k|k|k| |]; cbn.
    + rewrite Lock_alone. destruct (TryLock k kl).1; [|done].
      intros [= <-]. apply Htl.
    + intros [= <-]. apply Htl.
    + intros [= <-]. unfold Unlock. by destruct (locks kl !! k).
    + by intros [= <-].
    + done.
  - done.
Qed.

Lemma Unlock_keeps_registry_witness :
  cell_is "test1" 0 (Unlock "test1" (TryLock "test1" New).2) ∧
  locks New ⊆ locks (TryLock "test1" New).2.
Proof.
  destruct (Unlock_keeps_registry "test1" New) as (_ & Hb & Hc & _). split.
  - apply (Hb 0%nat). reflexivity.
  - apply (Hc 0%nat (CTryLock "test1")); [discriminate | reflexivity].
Defined.

(** ** Balanced use: the counter is the number of held keys *)

Lemma int32_add_l a b : int32 (int32 a + b) = int32 (a + b).
Proof.
  unfold int32, wrap. change (2 ^ (32 - 1)) with (2 ^ 31). f_equal.
  replace ((a + 2 ^ 31) mod 2 ^ 32 - 2 ^ 31 + b + 2 ^ 31)
    with ((a + 2 ^ 31) mod 2 ^ 32 + b) by lia.
  rewrite Zplus_mod_idemp_l. f_equal. lia.
Qed.

Lemma cell_is_fun key v w kl : cell_is key v kl → cell_is key w kl → v = w.
Proof. intros (l & Hl & Hv) (l' & Hl' & Hw). congruence. Qed.

Lemma wf_cell key lock kl :
  wf kl → locks kl !! key = Some lock → cell_is key 0 kl ∨ cell_is key 1 kl.
Proof.
  intros Hwf Hk.
  destruct (lookup_lt_is_Some_2 (cells kl) lock) as [v Hv];
    [by eapply (wf_bound kl Hwf)|].
  destruct (wf_bit kl Hwf _ _ Hv) as [->| ->]; [left|right]; by exists lock.
Qed.

Lemma TryLock_locks_other key key' kl :
  key' ≠ key → locks (TryLock key' kl).2 !! key = locks kl !! key.
Proof.
  intros Hne. destruct (locks kl !! key') as [lock|] eqn:Hk.
  - destruct (cells kl !! lock) as [v|] eqn:Hv.
    + destruct (decide (v = 0)) as [->|Hn0].
      * by rewrite (TryLock_free _ _ _ Hk Hv).
      * by rewrite (TryLock_taken _ _ _ _ Hk Hv Hn0).
    + by rewrite (TryLock_dangling _ _ _ Hk Hv).
  - rewrite (TryLock_absent _ _ Hk). cbn. by rewrite lookup_insert_ne.
Qed.

Lemma TryLock_other_inv key key' kl :
  wf kl → key' ≠ key → cell_is key 1 (TryLock key' kl).2 → cell_is key 1 kl.
Proof.
  intros Hwf Hne Hc. pose proof Hc as (lock & Hk & _).
  rewrite TryLock_locks_other in Hk by done.
  destruct (wf_cell _ _ _ Hwf Hk) as [H0|H1]; [|done].
  apply (TryLock_other key key' 0 kl Hwf Hne) in H0.
  by pose proof (cell_is_fun _ _ _ _ H0 Hc).
Qed.

Lemma Unlock_other_inv key key' kl :
  wf kl → key' ≠ key → cell_is key 1 (Unlock key' kl) → cell_is key 1 kl.
Proof.
  intros Hwf Hne Hc. pose proof Hc as (lock & Hk & _).
  assert (Hk' : locks kl !! key = Some lock).
  { revert Hk. unfold Unlock. by destruct (locks kl !! key'). }
  destruct (wf_cell _ _ _ Hwf Hk') as [H0|H1]; [|done].
  apply (Unlock_other key key' 0 kl Hwf Hne) in H0.
  by pose proof (cell_is_fun _ _ _ _ H0 Hc).
Qed.

Lemma holds_New : holds ∅ New.
Proof.
  split; [apply wf_New|]. split; [|done].
  intros key. split; [set_solver|]. intros (lock & Hk & _). done.
Qed.

Lemma holds_WithMaxSpins held max kl :
  in_int32 max → holds held kl → holds held (WithMaxSpins max kl).
Proof.
  intros Hm (Hwf & Hh & Hc). split; [by apply wf_WithMaxSpins|]. done.
Qed.

Lemma holds_TryLock held key kl :
  holds held kl → key ∉ held →
  (TryLock key kl).1 = true ∧ holds ({[key]} ∪ held) (TryLock key kl).2.
Proof.
  intros (Hwf & Hh & Hc) Hnot.
  assert (Ht : (TryLock key kl).1 = true).
  { destruct (locks kl !! key) as [lock|] eqn:Hk.
    - destruct (wf_cell _ _ _ Hwf Hk) as [(l & Hl & Hv)|H1].
      + by rewrite (TryLock_free _ _ _ Hl Hv).
      + by apply Hh in H1.
    - by rewrite (TryLock_absent _ _ Hk). }
  split; [done|]. split; [by apply wf_TryLock|]. split.
  - intros k. rewrite elem_of_union, elem_of_singleton. split.
    + intros [->|Hin]; [by apply TryLock_true_cell|].
      apply TryLock_other; [done| |by apply Hh]. intros ->. done.
    + intros Hcell. destruct (decide (k = key)) as [->|Hne]; [by left|].
      right. apply Hh. by apply (TryLock_other_inv k key).
  - rewrite (TryLock_true_count _ _ Ht), Hc, int32_add_l.
    rewrite size_union by (clear - Hnot; set_solver). rewrite size_singleton. f_equal. lia.
Qed.

Lemma holds_Unlock held key kl :
  holds held kl → key ∈ held → holds (held ∖ {[key]}) (Unlock key kl).
Proof.
  intros (Hwf & Hh & Hc) Hin. split; [by apply wf_Unlock|]. split.
  - intros k. rewrite elem_of_difference, elem_of_singleton. split.
    + intros [Hk Hne]. apply Unlock_other; [done|congruence|by apply Hh].
    + intros Hcell. destruct (decide (k = key)) as [->|Hne].
      * apply Hh in Hin.
        pose proof (cell_is_fun _ _ _ _ (Unlock_cell _ _ _ Hin) Hcell). done.
      * split; [|done]. apply Hh. by apply (Unlock_other_inv k key).
  - apply Hh in Hin as Hcell. destruct Hcell as (lock & Hk & _).
    rewrite (Unlock_present _ _ _ Hk). cbn. rewrite Hc, int32_add_l.
    f_equal. rewrite size_difference by (clear - Hin; set_solver). rewrite size_singleton.
    assert (size held ≠ 0%nat); [|lia].
    intros Hz. apply size_empty_inv in Hz. set_solver.
Qed.

Lemma holds_exec fuel held c cs kl :
  holds held kl → balanced_from held (c :: cs) = true →
  ∃ kl', exec fuel c kl = Some kl' ∧ holds (held_step c held) kl' ∧
         balanced_from (held_step c held) cs = true.
Proof.
  intros Hh Hb. cbn in Hb. apply andb_true_iff in Hb as [Hc Hcs].
  destruct c as [key|key|key| |]; try done; cbn [exec held_step].
  - apply bool_decide_eq_true in Hc.
    destruct (holds_TryLock _ _ _ Hh Hc) as [Ht Hh'].
    exists (TryLock key kl).2. rewrite Lock_alone, Ht. done.
  - apply bool_decide_eq_true in Hc.
    exists (Unlock key kl). split; [done|]. split; [|done].
    by apply holds_Unlock.
Qed.

(** Every prefix of a balanced sequence runs to the end, and leaves the
    counter at the number of held keys. *)
Lemma holds_run fuel pre suf held kl :
  holds held kl → balanced_from held (pre ++ suf) = true →
  ∃ kl', run fuel pre kl = Some kl' ∧ holds (held_after held pre) kl' ∧
         balanced_from (held_after held pre) suf = true.
Proof.
  revert held kl. induction pre as [|c pre IH]; intros held kl Hh Hb; cbn.
  - by exists kl.
  - destruct (holds_exec fuel _ _ _ _ Hh Hb) as (kl1 & -> & Hh1 & Hb1).
    by apply IH.
Qed.

Lemma max_held_from_ge held cs : (size held ≤ max_held_from held cs)%nat.
Proof. destruct cs; cbn; lia. Qed.

Lemma max_held_from_prefix held pre suf :
  (size (held_after held pre) ≤ max_held_from held (pre ++ suf))%nat.
Proof.
  revert held. induction pre as [|c pre IH]; intros held; cbn.
  - apply max_held_from_ge.
  - specialize (IH (held_step c held)). unfold held_after in IH. lia.
Qed.

Lemma balanced_from_nil held : balanced_from held [] = true → held = ∅.
Proof. cbn. apply bool_decide_eq_true. Qed.

(** ** Many keys held at once *)

Lemma key_of_length n : String.length (key_of n) = n.
Proof. induction n as [|n IH]; cbn; congruence. Qed.

#[local] Instance key_of_inj : Inj (=) (=) key_of.
Proof.
  intros a b H. rewrite <- (key_of_length a), <- (key_of_length b). by rewrite H.
Qed.

Lemma keys_from_S a n :
  keys_from a (S n) = {[key_of a]} ∪ keys_from (S a) n.
Proof. reflexivity. Qed.

Lemma elem_of_keys_from a n key :
  key ∈ keys_from a n ↔ ∃ i, key = key_of i ∧ (a ≤ i < a + n)%nat.
Proof.
  unfold keys_from. rewrite elem_of_list_to_set, list_elem_of_fmap.
  split; intros (i & -> & Hi); exists i; (split; [done|]).
  - apply elem_of_seq in Hi. lia.
  - apply elem_of_seq. lia.
Qed.

Lemma key_of_notin_keys_from a n : key_of a ∉ keys_from (S a) n.
Proof.
  rewrite elem_of_keys_from. intros (i & Hi & Hr).
  apply key_of_inj in Hi. lia.
Qed.

Lemma size_keys_from a n : size (keys_from a n) = n.
Proof.
  unfold keys_from. rewrite size_list_to_set.
  - by rewrite length_fmap, length_seq.
  - apply NoDup_fmap; [apply _ | apply NoDup_seq].
Qed.

Lemma balanced_from_lock_from a n held rest :
  held ## keys_from a n →
  balanced_from held (lock_from a n ++ rest) =
    balanced_from (keys_from a n ∪ held) rest.
Proof.
  revert a held. induction n as [|n IH]; intros a held Hd.
  - cbn. f_equal. unfold keys_from. cbn. set_solver.
  - unfold lock_from. cbn [seq fmap list_fmap app balanced_from held_step].
    fold (lock_from (S a) n).
    rewrite keys_from_S in Hd.
    rewrite bool_decide_eq_true_2 by (clear - Hd; set_solver).
    cbn [andb]. rewrite IH.
    + f_equal. rewrite keys_from_S. clear. set_solver.
    + pose proof (key_of_notin_keys_from a n). clear - Hd H. set_solver.
Qed.

Lemma balanced_from_unlock_from a n :
  balanced_from (keys_from a n) (unlock_from a n) = true.
Proof.
  revert a. induction n as [|n IH]; intros a.
  - reflexivity.
  - unfold unlock_from. cbn [seq fmap list_fmap balanced_from held_step].
    fold (unlock_from (S a) n). rewrite keys_from_S.
    rewrite bool_decide_eq_true_2 by (clear; set_solver).
    cbn [andb].
    replace (({[key_of a]} ∪ keys_from (S a) n) ∖ {[key_of a]})
      with (keys_from (S a) n); [apply IH|].
    pose proof (key_of_notin_keys_from a n). clear - H. set_solver.
Qed.

Lemma balanced_lock_unlock_all n : balanced (lock_all n ++ unlock_all n) = true.
Proof.
  unfold balanced, lock_all, unlock_all.
  rewrite balanced_from_lock_from by (clear; set_solver).
  replace (keys_from 0 n ∪ ∅) with (keys_from 0 n) by (clear; set_solver).
  apply balanced_from_unlock_from.
Qed.

Lemma held_after_lock_from a n held :
  held_after held (lock_from a n) = keys_from a n ∪ held.
Proof.
  revert a held. induction n as [|n IH]; intros a held.
  - unfold keys_from. cbn. set_solver.
  - unfold lock_from, held_after. cbn [seq fmap list_fmap foldl held_step].
    fold (lock_from (S a) n). fold (held_after ({[key_of a]} ∪ held) (lock_from (S a) n)).
    rewrite IH, keys_from_S. clear. set_solver.
Qed.

(** Locking [n] distinct keys of a fresh manager leaves the counter at [n],
    wrapped to an [int32]. *)
Lemma run_lock_all fuel n :
  ∃ kl', run fuel (lock_all n) New = Some kl' ∧
         count kl' = int32 (Z.of_nat n).
Proof.
  destruct (holds_run fuel (lock_all n) (unlock_all n) ∅ New holds_New)
    as (kl' & Hrun & (_ & _ & Hc) & _).
  - apply balanced_lock_unlock_all.
  - exists kl'. split; [done|]. rewrite Hc. unfold lock_all.
    rewrite held_after_lock_from.
    replace (keys_from 0 n ∪ ∅) with (keys_from 0 n) by (clear; set_solver).
    by rewrite size_keys_from.
Qed.

(** C4, as the code has it.  On a manager between two calls where no key is
    held and [Size] is 0 (a fresh one, say), every balanced sequence of
    [Lock(k)]/[Unlock(k)] pairs runs to its end and leaves [Size] at 0.  At
    every intermediate point [Size] is the number of keys then held, hence
    not negative, provided that fewer than 2^31 keys are ever held at once:
    the counter is an [int32]. *)
Theorem balanced_Size_zero (fuel : nat) (cs : list Call) (kl : KeyLock) :
  reachable kl → (∀ key, ¬ cell_is key 1 kl) → Size kl = 0 →
  balanced cs = true →
  (∃ kl', run fuel cs kl = Some kl' ∧ Size kl' = 0) ∧
  (Z.of_nat (max_held cs) < 2 ^ 31 →
   ∀ pre suf, cs = pre ++ suf →
     ∃ kl', run fuel pre kl = Some kl' ∧
            Size kl' = Z.of_nat (size (held_after ∅ pre)) ∧ 0 <= Size kl').
Proof.
  intros Hr Hnone Hz Hb.
  assert (Hh : holds ∅ kl).
  { split; [by apply reachable_wf|]. split; [|done].
    intros key. split; [set_solver|]. intros Hc. by apply Hnone in Hc. }
  split.
  - destruct (holds_run fuel cs [] ∅ kl Hh) as (kl' & Hrun & Hh' & Hend).
    { by rewrite app_nil_r. }
    exists kl'. split; [done|]. apply balanced_from_nil in Hend.
    destruct Hh' as (_ & _ & Hc). unfold Size. by rewrite Hc, Hend.
  - intros Hmax pre suf ->.
    destruct (holds_run fuel pre suf ∅ kl Hh Hb) as (kl' & Hrun & Hh' & _).
    exists kl'. split; [done|]. destruct Hh' as (_ & _ & Hc).
    pose proof (max_held_from_prefix ∅ pre suf) as Hle.
    unfold max_held in Hmax. unfold Size. rewrite Hc, int32_id.
    + split; [done | lia].
    + unfold in_int32. lia.
Qed.

Lemma balanced_Size_zero_witness :
  (∃ kl', run 0 [CLock "a"; CLock "b"; CUnlock "a"; CUnlock "b"] New = Some kl' ∧
          Size kl' = 0) ∧
  (∃ kl', run 0 [CLock "a"; CLock "b"] New = Some kl' ∧
          Size kl' = Z.of_nat (size (held_after ∅ [CLock "a"; CLock "b"])) ∧
          0 <= Size kl').
Proof.
  assert (Hnone : ∀ key, ¬ cell_is key 1 New).
  { intros key (lock & Hk & _). discriminate. }
  destruct (balanced_Size_zero 0
              [CLock "a"; CLock "b"; CUnlock "a"; CUnlock "b"] New
              reach_New Hnone eq_refl eq_refl) as [Hend Hmid].
  split; [exact Hend|].
  apply (Hmid ltac:(vm_compute; reflexivity)
              [CLock "a"; CLock "b"] [CUnlock "a"; CUnlock "b"] eq_refl).
Defined.

(** The claim C4 as stated fails where the [int32] counter wraps: locking
    2^31 distinct keys of a fresh manager, the first half of a balanced
    sequence, leaves [Size] at -2^31. *)
Lemma balanced_Size_negative :
  balanced (lock_all int32_keys ++ unlock_all int32_keys) = true ∧
  ∃ kl', run 0 (lock_all int32_keys) New = Some kl' ∧ Size kl' = - 2 ^ 31.
Proof.
  split; [apply balanced_lock_unlock_all|].
  destruct (run_lock_all 0 int32_keys) as (kl' & Hrun & Hc).
  exists kl'. split; [exact Hrun|]. unfold Size. rewrite Hc.
  unfold int32_keys. rewrite Z2Nat.id by lia. reflexivity.
Qed.

(** ** The waiting loop of [Lock] *)

Lemma maxSpins_CompareAndSwapInt32 lock old new kl :
  maxSpins (CompareAndSwapInt32 lock old new kl).2 = maxSpins kl.
Proof.
  unfold CompareAndSwapInt32. destruct (LoadInt32 lock kl) as [v|]; [|done].
  by destruct (v =? old).
Qed.

Lemma maxSpins_LoadOrStore key kl : maxSpins (LoadOrStore key kl).2 = maxSpins kl.
Proof. unfold LoadOrStore. by destruct (locks kl !! key). Qed.

Lemma maxSpins_TryLock key kl : maxSpins (TryLock key kl).2 = maxSpins kl.
Proof.
  unfold TryLock.
  pose proof (maxSpins_LoadOrStore key kl) as H1.
  destruct (LoadOrStore key kl) as [lock kl1].
  pose proof (maxSpins_CompareAndSwapInt32 lock 0 1 kl1) as H2.
  destruct (CompareAndSwapInt32 lock 0 1 kl1) as [[] kl2]; cbn in *; congruence.
Qed.

Lemma maxSpins_Unlock key kl : maxSpins (Unlock key kl) = maxSpins kl.
Proof. unfold Unlock. by destruct (locks kl !! key). Qed.

Lemma maxSpins_others_run os kl : maxSpins (others_run os kl) = maxSpins kl.
Proof.
  revert kl. induction os as [|o os IH]; intros kl; [done|].
  cbn. unfold others_run in IH. rewrite IH.
  destruct o; cbn; [apply maxSpins_TryLock | apply maxSpins_Unlock | done].
Qed.

(** Each wait of the loop yields [backoff] times and then updates [backoff]
    by the ceiling test; a property of [backoff] that the update keeps holds
    at every wait. *)
Lemma Lock_loop_waits (I : Z → Prop) env lock backoff kl :
  Forall (λ f : KeyLock → KeyLock, ∀ s, maxSpins (f s) = maxSpins s) env →
  (∀ b, I b → I (if b <? maxSpins kl then int (Z.shiftl b 1) else b)) →
  I backoff →
  Forall (λ w, I (w_backoff w) ∧ I (w_next w) ∧
               w_yields w = Z.to_nat (w_backoff w) ∧
               w_next w = (if w_backoff w <? maxSpins kl
                           then int (Z.shiftl (w_backoff w) 1)
                           else w_backoff w))
         (Lock_loop env lock backoff kl).2.
Proof.
  intros Henv. revert backoff kl.
  induction Henv as [|f env Hf _ IH]; intros backoff kl Hstep Hb; cbn;
    pose proof (maxSpins_CompareAndSwapInt32 lock 0 1 kl) as Hm;
    destruct (CompareAndSwapInt32 lock 0 1 kl) as [[] kl1]; cbn in *;
    try (by constructor).
  assert (Hm2 : maxSpins (f kl1) = maxSpins kl) by (by rewrite Hf).
  specialize (IH (next_backoff backoff (f kl1)) (f kl1)).
  rewrite Hm2 in IH.
  assert (Hn : next_backoff backoff (f kl1) =
               (if backoff <? maxSpins kl then int (Z.shiftl backoff 1)
                else backoff)).
  { unfold next_backoff. by rewrite Hm2. }
  specialize (IH Hstep). rewrite Hn in IH |- *. specialize (IH (Hstep _ Hb)).
  destruct (Lock_loop env lock _ (f kl1)) as [[acquired kl3] waits].
  cbn in *. constructor; [|done]. cbn. auto using Hstep.
Qed.

Lemma Lock_with_waits (I : Z → Prop) others key kl :
  (∀ b, I b → I (if b <? maxSpins kl then int (Z.shiftl b 1) else b)) →
  I 1 →
  Forall (λ w, I (w_backoff w) ∧ I (w_next w) ∧
               w_yields w = Z.to_nat (w_backoff w) ∧
               w_next w = (if w_backoff w <? maxSpins kl
                           then int (Z.shiftl (w_backoff w) 1)
                           else w_backoff w))
         (Lock_with (others_run <$> others) key kl).2.
Proof.
  intros Hstep H1. unfold Lock_with.
  pose proof (maxSpins_LoadOrStore key kl) as Hm.
  destruct (LoadOrStore key kl) as [lock kl1]. cbn in Hm. rewrite <- Hm in *.
  apply Lock_loop_waits; [|done|done].
  apply Forall_fmap, Forall_forall. intros os _ s. apply maxSpins_others_run.
Qed.

(** The first wait starts from a backoff of 1. *)
Lemma Lock_with_first_wait env key kl w waits :
  (Lock_with env key kl).2 = w :: waits → w_backoff w = 1.
Proof.
  unfold Lock_with. destruct (LoadOrStore key kl) as [lock kl1].
  destruct env as [|f env]; cbn;
    destruct (CompareAndSwapInt32 lock 0 1 kl1) as [[] kl2]; try done.
  destruct (Lock_loop env lock _ _) as [[acquired kl3] ws]. cbn.
  by intros [= <- _].
Qed.

Lemma shiftl_1_small b : 0 <= b <= 2 ^ 32 → int (Z.shiftl b 1) = 2 * b.
Proof.
  intros Hb. rewrite Z.shiftl_mul_pow2 by lia. rewrite int_id; lia.
Qed.

(** C9. Whatever value [WithMaxSpins] has set, zero and negative ones
    included, and whatever the other goroutines do meanwhile, every wait of
    the loop of [Lock] calls [runtime.Gosched] at least once: [backoff]
    starts at 1 and never gets below 1.  ([backoff] is an [int] of 64
    bits.) *)
Theorem Lock_wait_yields (max : Z) (others : list (list Other)) (key : string)
    (kl : KeyLock) :
  in_int32 max →
  Forall (λ w, 1 <= w_backoff w ∧ 1 <= w_next w ∧ (1 ≤ w_yields w)%nat ∧
               w_yields w = Gosched_calls (w_backoff w))
         (Lock_with (others_run <$> others) key (WithMaxSpins max kl)).2.
Proof.
  intros Hmax.
  eapply Forall_impl;
    [apply (Lock_with_waits (λ b, 1 <= b <= 2 ^ 32))|].
  - intros b Hb. cbn. destruct (Z.ltb_spec b max); [|done].
    rewrite shiftl_1_small by lia. unfold in_int32 in Hmax. lia.
  - lia.
  - cbn. intros w (Hb & Hn & Hy & _). unfold Gosched_calls. lia.
Qed.

Lemma Lock_wait_yields_witness :
  Forall (λ w, 1 <= w_backoff w ∧ 1 <= w_next w ∧ (1 ≤ w_yields w)%nat ∧
               w_yields w = Gosched_calls (w_backoff w))
         (Lock_with (others_run <$> [[]; [OTryLock "b"]; []; [OUnlock "a"]]) "a"
                    (WithMaxSpins (-5) (TryLock "a" New).2)).2 ∧
  (Lock_with (others_run <$> [[]; [OTryLock "b"]; []; [OUnlock "a"]]) "a"
             (WithMaxSpins (-5) (TryLock "a" New).2)).2
    = [mkWait 1 1 1; mkWait 1 1 1; mkWait 1 1 1; mkWait 1 1 1].
Proof.
  split; [|reflexivity].
  apply (Lock_wait_yields (-5) [[]; [OTryLock "b"]; []; [OUnlock "a"]] "a"
           (TryLock "a" New).2).
  unfold in_int32. lia.
Defined.

(** Under a positive ceiling [backoff] stays below twice the ceiling, and
    under a ceiling that is a power of two it never exceeds the ceiling. *)
Lemma Lock_backoff_below_twice (others : list (list Other)) key kl :
  0 < maxSpins kl < 2 ^ 31 →
  Forall (λ w, w_backoff w < 2 * maxSpins kl ∧ w_next w < 2 * maxSpins kl)
         (Lock_with (others_run <$> others) key kl).2.
Proof.
  intros Hm.
  eapply Forall_impl;
    [apply (Lock_with_waits (λ b, 1 <= b < 2 * maxSpins kl))|].
  - intros b Hb. cbn. destruct (Z.ltb_spec b (maxSpins kl)); [|done].
    rewrite shiftl_1_small by lia. lia.
  - lia.
  - cbn. intros w (Hb & Hn & _). lia.
Qed.

Lemma Lock_backoff_power_of_two (others : list (list Other)) key kl k :
  0 <= k < 31 → maxSpins kl = 2 ^ k →
  Forall (λ w, w_backoff w <= maxSpins kl ∧ w_next w <= maxSpins kl)
         (Lock_with (others_run <$> others) key kl).2.
Proof.
  intros Hk Hm.
  assert (Hpow : ∀ j, 0 <= j <= k → 2 ^ j <= 2 ^ k).
  { intros j Hj. apply Z.pow_le_mono_r; lia. }
  eapply Forall_impl;
    [apply (Lock_with_waits (λ b, ∃ j, 0 <= j <= k ∧ b = 2 ^ j))|].
  - intros b (j & Hj & ->). cbn. rewrite Hm.
    destruct (Z.ltb_spec (2 ^ j) (2 ^ k)) as [Hlt|_]; [|by exists j].
    exists (j + 1). apply Z.pow_lt_mono_r_iff in Hlt; [|lia|lia].
    split; [lia|].
    assert (2 ^ j <= 2 ^ 32) by (apply Z.pow_le_mono_r; lia).
    assert (0 < 2 ^ j) by (apply Z.pow_pos_nonneg; lia).
    rewrite shiftl_1_small by lia. rewrite Z.pow_add_r by lia. lia.
  - exists 0. split; [lia | done].
  - cbn. intros w ((j & Hj & ->) & (j' & Hj' & ->) & _). rewrite Hm.
    split; apply Hpow; lia.
Qed.

(** ** Where the code departs from the claims *)

(** [Unlock] on a registered key adds -1 to the counter whatever the cell
    reads. *)
Lemma Unlock_registered_count key lock kl :
  locks kl !! key = Some lock →
  count (Unlock key kl) = int32 (count kl + -1).
Proof. intros Hk. by rewrite (Unlock_present _ _ _ Hk). Qed.

(** C1, failing input.  After [Lock("a")] and [Unlock("a")] on a fresh
    manager the cell of "a" reads Unlocked and [Size] is 0; a second
    [Unlock("a")] finds the cell Unlocked and still decrements the counter,
    to -1. *)
Theorem Unlock_decrements_when_unlocked :
  ∃ kl, run 0 [CLock "a"; CUnlock "a"] New = Some kl ∧
        cell_is "a" 0 kl ∧ Size kl = 0 ∧
        cell_is "a" 0 (Unlock "a" kl) ∧ Size (Unlock "a" kl) = -1.
Proof.
  eexists. split; [reflexivity|].
  repeat split; try reflexivity; exists 0%nat; split; reflexivity.
Qed.

(** C2, failing input.  The manager reached by [Lock("a")], [Unlock("a")],
    [Unlock("a")] has no cell Locked and a counter, hence a [Size], of -1. *)
Theorem reachable_negative_Size :
  ∃ kl, run 0 [CLock "a"; CUnlock "a"; CUnlock "a"] New = Some kl ∧
        reachable kl ∧ locked_cells kl = 0%nat ∧ Size kl = -1.
Proof.
  eexists. split; [reflexivity|]. split; [|split; reflexivity].
  eapply (reach_exec 0 (CUnlock "a")); [|reflexivity].
  eapply (reach_exec 0 (CUnlock "a")); [|reflexivity].
  eapply (reach_exec 0 (CLock "a")); [apply reach_New | reflexivity].
Qed.

(** C5, failing input.  With [maxSpins] set to 3, a [Lock] that waits three
    times before the holder releases the key yields 1, 2 and 4 times:
    [backoff] goes from 2 to 4, above the ceiling. *)
Theorem Lock_backoff_exceeds_maxSpins :
  (Lock_with (others_run <$> [[]; []; [OUnlock "a"]]) "a"
             (TryLock "a" (WithMaxSpins 3 New)).2).2
    = [mkWait 1 1 2; mkWait 2 2 4; mkWait 4 4 4] ∧
  (Lock_with (others_run <$> [[]; []; [OUnlock "a"]]) "a"
             (TryLock "a" (WithMaxSpins 3 New)).2).1.1 = true ∧
  maxSpins (TryLock "a" (WithMaxSpins 3 New)).2 = 3.
Proof. repeat split; reflexivity. Qed.

(** * Further properties of the code *)

(** ** What every reachable manager satisfies *)

(** Between two calls, the registry and the cells of a manager built from
    [New] are consistent: a registered pointer designates a cell, two keys
    never share a cell, a cell reads 0 or 1, a cell that reads 1 is
    registered, and [count] and [maxSpins] are in the range of [int32]. *)
Theorem reachable_consistent (kl : KeyLock) :
  reachable kl →
  (∀ key lock, locks kl !! key = Some lock → is_Some (cells kl !! lock)) ∧
  (∀ k1 k2 lock, locks kl !! k1 = Some lock → locks kl !! k2 = Some lock →
                 k1 = k2) ∧
  (∀ lock v, cells kl !! lock = Some v → v = 0 ∨ v = 1) ∧
  (∀ lock, cells kl !! lock = Some 1 → ∃ key, locks kl !! key = Some lock) ∧
  in_int32 (count kl) ∧ in_int32 (maxSpins kl).
Proof.
  intros Hr. destruct (reachable_wf _ Hr) as [Hb Hi Hbit Ho Hc Hm].
  repeat split; try done; try apply Hc; try apply Hm.
  intros key lock Hk. apply lookup_lt_is_Some_2. eauto.
Qed.

Lemma reachable_consistent_witness :
  in_int32 (count (Unlock "a" (TryLock "b" (TryLock "a" New).2).2)) ∧
  in_int32 (maxSpins (Unlock "a" (TryLock "b" (TryLock "a" New).2).2)).
Proof.
  apply (reachable_consistent (Unlock "a" (TryLock "b" (TryLock "a" New).2).2)).
  apply (reach_exec 0 (CUnlock "a") (TryLock "b" (TryLock "a" New).2).2);
    [|reflexivity].
  apply (reach_exec 0 (CTryLock "b") (TryLock "a" New).2); [|reflexivity].
  apply (reach_exec 0 (CTryLock "a") New); [apply reach_New | reflexivity].
Defined.

(** ** Keys are independent *)

Lemma TryLock_true_iff key kl :
  wf kl → (TryLock key kl).1 = true ↔ ¬ cell_is key 1 kl.
Proof.
  intros Hwf. split.
  - intros Ht Hheld. by rewrite (TryLock_held _ _ Hheld) in Ht.
  - intros Hfree. destruct (locks kl !! key) as [lock|] eqn:Hk.
    + destruct (wf_cell _ _ _ Hwf Hk) as [(l & Hl & Hv)|H1]; [|done].
      by rewrite (TryLock_free _ _ _ Hl Hv).
    + by rewrite (TryLock_absent _ _ Hk).
Qed.

Lemma Cleanup_held_inv key v kl : cell_is key v (Cleanup kl) → cell_is key v kl.
Proof.
  intros (lock & Hk & Hv). apply Cleanup_lookup_Some in Hk as [Hk _].
  by exists lock.
Qed.

Lemma Unlock_locks key kl : locks (Unlock key kl) = locks kl.
Proof. unfold Unlock. by destruct (locks kl !! key). Qed.

Lemma exec_held_inv fuel c key kl kl' :
  wf kl → c ≠ CLock key → c ≠ CTryLock key →
  exec fuel c kl = Some kl' → cell_is key 1 kl' → cell_is key 1 kl.
Proof.
  intros Hwf Hc1 Hc2. destruct c as [k|k|k| |]; cbn.
  - rewrite Lock_alone. destruct (TryLock k kl).1; [|done]. intros [= <-].
    apply TryLock_other_inv; [done|congruence].
  - intros [= <-]. apply TryLock_other_inv; [done|congruence].
  - intros [= <-] Hheld. destruct (decide (k = key)) as [->|Hne].
    + destruct Hheld as (lock & Hk & Hv).
      assert (Hk' : locks kl !! key = Some lock)
        by (by rewrite <- (Unlock_locks key kl)).
      assert (H0 : cell_is key 0 (Unlock key kl)).
      { destruct (wf_cell _ _ _ Hwf Hk') as [H|H]; by eapply Unlock_cell. }
      assert (H1 : cell_is key 1 (Unlock key kl)) by (by exists lock).
      by pose proof (cell_is_fun _ _ _ _ H0 H1).
    + by apply (Unlock_other_inv key k).
  - by intros [= <-].
  - intros [= <-]. apply Cleanup_held_inv.
Qed.

(** Whether [TryLock(key)] succeeds depends on the cell of [key] alone: a
    call on another key, [Size] or [Cleanup] made in between does not change
    its result. *)
Theorem TryLock_result_independent (fuel : nat) (c : Call) (key : string)
    (kl kl' : KeyLock) :
  reachable kl →
  c ≠ CLock key → c ≠ CTryLock key → c ≠ CUnlock key →
  exec fuel c kl = Some kl' →
  (TryLock key kl').1 = (TryLock key kl).1.
Proof.
  intros Hr Hc1 Hc2 Hc3 Hex. apply reachable_wf in Hr as Hwf.
  pose proof (wf_exec _ _ _ _ Hwf Hex) as Hwf'.
  destruct (TryLock key kl).1 eqn:Ht.
  - apply TryLock_true_iff; [done|]. apply TryLock_true_iff in Ht; [|done].
    intros Hheld. apply Ht. by eapply exec_held_inv.
  - apply not_true_iff_false. apply not_true_iff_false in Ht.
    rewrite TryLock_true_iff in Ht |- * by done.
    intros Hfree. apply Ht. intros Hheld. apply Hfree.
    by apply (exec_held fuel c key kl kl').
Qed.

Lemma TryLock_result_independent_witness :
  (TryLock "a" (TryLock "b" (TryLock "a" New).2).2).1
    = (TryLock "a" (TryLock "a" New).2).1 ∧
  (TryLock "a" (Cleanup (Unlock "a" (TryLock "a" New).2))).1
    = (TryLock "a" (Unlock "a" (TryLock "a" New).2)).1.
Proof.
  split.
  - apply (TryLock_result_independent 0 (CTryLock "b") "a" (TryLock "a" New).2);
      try discriminate; [|reflexivity].
    apply (reach_exec 0 (CTryLock "a") New); [apply reach_New | reflexivity].
  - apply (TryLock_result_independent 0 CCleanup "a"
             (Unlock "a" (TryLock "a" New).2));
      try discriminate; [|reflexivity].
    apply (reach_exec 0 (CUnlock "a") (TryLock "a" New).2); [|reflexivity].
    apply (reach_exec 0 (CTryLock "a") New); [apply reach_New | reflexivity].
Defined.

(** ** [Lock] without help *)

(** [Lock] is not reentrant: called on a key whose cell reads Locked while
    no other goroutine runs, it never returns, however long it waits.  On
    any other key of a reachable manager it returns at its first attempt,
    without a wait, and has the effect of a successful [TryLock]. *)
Theorem Lock_alone_returns_iff_free (key : string) (kl : KeyLock) :
  (cell_is key 1 kl → ∀ fuel, Lock fuel key kl = None) ∧
  (reachable kl → ¬ cell_is key 1 kl →
     ∀ env, Lock_with env key kl = (true, (TryLock key kl).2, []) ∧
            ∀ fuel, Lock fuel key kl = Some (TryLock key kl).2).
Proof.
  split.
  - intros Hheld fuel. rewrite Lock_alone. by rewrite (TryLock_held _ _ Hheld).
  - intros Hr Hfree env. apply reachable_wf in Hr.
    apply (TryLock_true_iff key kl Hr) in Hfree. split.
    + revert Hfree. unfold Lock_with, TryLock.
      destruct (LoadOrStore key kl) as [lock kl1].
      destruct env; cbn;
        destruct (CompareAndSwapInt32 lock 0 1 kl1) as [[] kl2]; done.
    + intros fuel. by rewrite Lock_alone, Hfree.
Qed.

Lemma Lock_alone_returns_iff_free_witness :
  Lock 1000 "a" (TryLock "a" New).2 = None ∧
  Lock 0 "b" (TryLock "a" New).2 = Some (TryLock "b" (TryLock "a" New).2).2.
Proof.
  destruct (Lock_alone_returns_iff_free "a" (TryLock "a" New).2) as [Ha _].
  destruct (Lock_alone_returns_iff_free "b" (TryLock "a" New).2) as [_ Hb].
  split.
  - apply Ha. exists 0%nat. split; reflexivity.
  - apply (Hb ltac:(apply (reach_exec 0 (CTryLock "a") New);
                    [apply reach_New | reflexivity])).
    + intros (lock & Hk & _). vm_compute in Hk. discriminate.
    + exact [].
Defined.

(** ** [Lock] among other goroutines *)

Lemma wf_other_step o kl : wf kl → wf (other_step o kl).
Proof.
  destruct o; cbn; [apply wf_TryLock | apply wf_Unlock | apply wf_Cleanup].
Qed.

Lemma other_step_held o key lock kl :
  wf kl → o ≠ OUnlock key →
  locks kl !! key = Some lock → cells kl !! lock = Some 1 →
  locks (other_step o kl) !! key = Some lock ∧
  cells (other_step o kl) !! lock = Some 1.
Proof.
  intros Hwf Ho Hk Hv.
  assert (Hheld : cell_is key 1 kl) by (by exists lock).
  assert (Hlocks : locks (other_step o kl) !! key = Some lock).
  { destruct o as [k|k|]; cbn [other_step].
    - destruct (decide (k = key)) as [->|Hne].
      + by rewrite (TryLock_held _ _ Hheld).
      + by rewrite TryLock_locks_other.
    - by rewrite Unlock_locks.
    - rewrite Cleanup_lookup_other; [done|].
      intros l Hl. rewrite Hk in Hl. inversion Hl; subst.
      unfold LoadInt32. by rewrite Hv. }
  split; [done|].
  assert (Hheld' : cell_is key 1 (other_step o kl)).
  { destruct o as [k|k|]; cbn [other_step].
    - destruct (decide (k = key)) as [->|Hne].
      + by rewrite (TryLock_held _ _ Hheld).
      + by apply TryLock_other.
    - apply Unlock_other; [done| |done]. intros ->. by apply Ho.
    - by apply Cleanup_held. }
  destruct Hheld' as (l & Hl & Hl1). unfold LoadInt32 in Hl1. congruence.
Qed.

Lemma others_run_held os key lock kl :
  wf kl → Forall (λ o, o ≠ OUnlock key) os →
  locks kl !! key = Some lock → cells kl !! lock = Some 1 →
  wf (others_run os kl) ∧
  locks (others_run os kl) !! key = Some lock ∧
  cells (others_run os kl) !! lock = Some 1.
Proof.
  intros Hwf Hos. revert kl Hwf.
  induction Hos as [|o os Ho _ IH]; intros kl Hwf Hk Hv; [done|].
  cbn. destruct (other_step_held o key lock kl Hwf Ho Hk Hv) as [Hk' Hv'].
  apply IH; [by apply wf_other_step|done|done].
Qed.

Lemma others_run_app os1 os2 kl :
  others_run (os1 ++ os2) kl = others_run os2 (others_run os1 kl).
Proof. unfold others_run. by rewrite foldl_app. Qed.

Lemma Lock_loop_held others key lock backoff kl :
  wf kl → Forall (Forall (λ o, o ≠ OUnlock key)) others →
  locks kl !! key = Some lock → cells kl !! lock = Some 1 →
  (Lock_loop (others_run <$> others) lock backoff kl).1
    = (false, others_run (concat others) kl) ∧
  length (Lock_loop (others_run <$> others) lock backoff kl).2 = length others.
Proof.
  intros Hwf Hos. revert backoff kl Hwf.
  induction Hos as [|os others Ho _ IH]; intros backoff kl Hwf Hk Hv.
  - cbn. unfold CompareAndSwapInt32, LoadInt32. by rewrite Hv.
  - change (concat (os :: others)) with (os ++ concat others).
    rewrite others_run_app.
    destruct (others_run_held os key lock kl Hwf Ho Hk Hv)
      as (Hwf' & Hk' & Hv').
    specialize (IH (next_backoff backoff (others_run os kl)) _ Hwf' Hk' Hv').
    assert (Hcas : CompareAndSwapInt32 lock 0 1 kl = (false, kl)).
    { unfold CompareAndSwapInt32, LoadInt32. by rewrite Hv. }
    cbn [fmap list_fmap Lock_loop]. rewrite Hcas. cbv iota beta zeta.
    destruct (Lock_loop _ lock _ (others_run os kl)) as [[acquired kl3] waits].
    cbn [fst snd length] in *. destruct IH as [IH1 IH2].
    split; [done | by rewrite IH2].
Qed.

(** Mutual exclusion: as long as no goroutine calls [Unlock] on a held key,
    whatever else the others do ([TryLock], [Unlock] of other keys,
    [Cleanup]), a [Lock] of that key keeps waiting: each of its attempts
    fails, and it changes nothing in the manager. *)
Theorem Lock_waits_while_held (others : list (list Other)) (key : string)
    (kl : KeyLock) :
  reachable kl → cell_is key 1 kl →
  Forall (Forall (λ o, o ≠ OUnlock key)) others →
  (Lock_with (others_run <$> others) key kl).1
    = (false, others_run (concat others) kl) ∧
  length (Lock_with (others_run <$> others) key kl).2 = length others.
Proof.
  intros Hr (lock & Hk & Hv) Hos. apply reachable_wf in Hr.
  unfold Lock_with, LoadOrStore. rewrite Hk.
  by apply (Lock_loop_held others key).
Qed.

Lemma Lock_waits_while_held_witness :
  (Lock_with (others_run <$> [[OTryLock "a"]; [OCleanup; OTryLock "b"];
                              [OUnlock "b"]]) "a" (TryLock "a" New).2).1.1
    = false.
Proof.
  assert (Hr : reachable (TryLock "a" New).2).
  { apply (reach_exec 0 (CTryLock "a") New); [apply reach_New | reflexivity]. }
  assert (Hheld : cell_is "a" 1 (TryLock "a" New).2)
    by (exists 0%nat; split; reflexivity).
  destruct (Lock_waits_while_held
              [[OTryLock "a"]; [OCleanup; OTryLock "b"]; [OUnlock "b"]]
              "a" (TryLock "a" New).2 Hr Hheld) as [H _].
  - repeat constructor; discriminate.
  - by rewrite H.
Defined.

Lemma Lock_loop_success env lock backoff kl kl' :
  CompareAndSwapInt32 lock 0 1 kl = (true, kl') →
  Lock_loop env lock backoff kl = (true, AddInt32_count 1 kl', []).
Proof. intros H. destruct env; cbn; by rewrite H. Qed.

Lemma CompareAndSwapInt32_held lock kl :
  cells kl !! lock = Some 1 → CompareAndSwapInt32 lock 0 1 kl = (false, kl).
Proof. intros H. unfold CompareAndSwapInt32, LoadInt32. by rewrite H. Qed.

Lemma CompareAndSwapInt32_free lock kl :
  cells kl !! lock = Some 0 →
  CompareAndSwapInt32 lock 0 1 kl = (true, StoreInt32 lock 1 kl).
Proof. intros H. unfold CompareAndSwapInt32, LoadInt32. by rewrite H. Qed.

Lemma TryLock_registered key lock kl :
  locks kl !! key = Some lock → cells kl !! lock = Some 0 →
  TryLock key kl = (true, AddInt32_count 1 (StoreInt32 lock 1 kl)).
Proof.
  intros Hk Hv. unfold TryLock, LoadOrStore. rewrite Hk.
  by rewrite (CompareAndSwapInt32_free _ _ Hv).
Qed.

Lemma Lock_loop_release n rest key lock backoff kl :
  locks kl !! key = Some lock → cells kl !! lock = Some 1 →
  (Lock_loop (replicate n (λ s, s) ++ Unlock key :: rest) lock backoff kl).1
    = (true, (TryLock key (Unlock key kl)).2) ∧
  length (Lock_loop (replicate n (λ s, s) ++ Unlock key :: rest)
                    lock backoff kl).2 = S n.
Proof.
  intros Hk Hv. pose proof (CompareAndSwapInt32_held _ _ Hv) as Hcas.
  revert backoff. induction n as [|n IH]; intros backoff.
  - cbn [replicate app Lock_loop]. rewrite Hcas. cbv iota beta zeta.
    assert (Hk' : locks (Unlock key kl) !! key = Some lock)
      by (by rewrite Unlock_locks).
    assert (Hv' : cells (Unlock key kl) !! lock = Some 0).
    { rewrite (Unlock_present _ _ _ Hk). cbn.
      apply list_lookup_insert_eq. by eapply lookup_lt_Some. }
    rewrite (Lock_loop_success rest lock _ _ _
               (CompareAndSwapInt32_free _ _ Hv')).
    by rewrite (TryLock_registered _ _ _ Hk' Hv').
  - cbn [replicate app Lock_loop]. rewrite Hcas. cbv iota beta zeta.
    specialize (IH (next_backoff backoff kl)).
    destruct (Lock_loop _ lock _ kl) as [[acquired kl3] waits].
    cbn [fst snd length] in *. destruct IH as [IH1 IH2].
    split; [done | by rewrite IH2].
Qed.

(** A waiting [Lock] gets the key at its first attempt after the holder's
    [Unlock]: if the others do nothing during [n] waits and the key is
    released during the next one, [Lock] returns after [n + 1] waits, and
    the manager is then as after that [Unlock] followed by a successful
    [TryLock]. *)
Theorem Lock_acquires_after_release (n : nat) (rest : list (KeyLock → KeyLock))
    (key : string) (kl : KeyLock) :
  cell_is key 1 kl →
  (Lock_with (replicate n (λ s, s) ++ Unlock key :: rest) key kl).1
    = (true, (TryLock key (Unlock key kl)).2) ∧
  (TryLock key (Unlock key kl)).1 = true ∧
  length (Lock_with (replicate n (λ s, s) ++ Unlock key :: rest) key kl).2
    = S n.
Proof.
  intros (lock & Hk & Hv). unfold Lock_with, LoadOrStore. rewrite Hk.
  destruct (Lock_loop_release n rest key lock 1 kl Hk Hv) as [H1 H2].
  split; [done|]. split; [|done].
  assert (Hheld : cell_is key 1 kl) by (by exists lock).
  destruct (Unlock_cell _ _ _ Hheld) as (l & Hl & Hl0).
  by rewrite (TryLock_free _ _ _ Hl Hl0).
Qed.

Lemma Lock_acquires_after_release_witness :
  (Lock_with (replicate 2 (λ s, s) ++ [Unlock "a"]) "a" (TryLock "a" New).2).1
    = (true, (TryLock "a" (Unlock "a" (TryLock "a" New).2)).2) ∧
  length (Lock_with (replicate 2 (λ s, s) ++ [Unlock "a"]) "a"
                    (TryLock "a" New).2).2 = 3%nat.
Proof.
  destruct (Lock_acquires_after_release 2 [] "a" (TryLock "a" New).2)
    as (H1 & _ & H2).
  - exists 0%nat. split; reflexivity.
  - split; [exact H1 | exact H2].
Defined.

(** [Cleanup] run between a release and the retry of a waiting [Lock] lets
    two goroutines hold the same key.  The holder of [key] calls [Unlock],
    [Cleanup] evicts the now Unlocked entry, a third goroutine's [TryLock]
    registers a fresh cell and succeeds, and the waiting [Lock], which kept
    the pointer to the evicted cell, succeeds as well: two distinct cells
    read Locked for [key], and the counter counts both holders. *)
Theorem Cleanup_while_waiting_two_holders (key : string) (kl : KeyLock) :
  cell_is key 1 kl →
  ∃ old new kl',
    (Lock_with [others_run [OUnlock key; OCleanup; OTryLock key]] key kl).1
      = (true, kl') ∧
    (TryLock key (Cleanup (Unlock key kl))).1 = true ∧
    locks kl !! key = Some old ∧ locks kl' !! key = Some new ∧ old ≠ new ∧
    cells kl' !! old = Some 1 ∧ cells kl' !! new = Some 1 ∧
    count kl' = int32 (count kl + 1).
Proof.
  intros (old & Hk & Hv). unfold LoadInt32 in Hv.
  assert (Hlt : (old < length (cells kl))%nat) by (by eapply lookup_lt_Some).
  set (kl1 := Unlock key kl).
  assert (Hk1 : locks kl1 !! key = Some old)
    by (unfold kl1; by rewrite Unlock_locks).
  assert (Hc1 : cells kl1 = <[old := 0]> (cells kl))
    by (unfold kl1; by rewrite (Unlock_present _ _ _ Hk)).
  assert (Hn1 : count kl1 = int32 (count kl + -1))
    by (unfold kl1; by rewrite (Unlock_present _ _ _ Hk)).
  assert (Hv1 : LoadInt32 old kl1 = Some 0).
  { unfold LoadInt32. rewrite Hc1. by apply list_lookup_insert_eq. }
  set (kl2 := Cleanup kl1).
  assert (Hk2 : locks kl2 !! key = None)
    by (by apply (Cleanup_lookup_unlocked kl1 key old)).
  assert (Hc2 : cells kl2 = cells kl1) by reflexivity.
  assert (Hn2 : count kl2 = count kl1) by reflexivity.
  pose proof (TryLock_absent _ _ Hk2) as Ht.
  set (kl3 := (TryLock key kl2).2).
  assert (Hk3 : locks kl3 !! key = Some (length (cells kl2))).
  { unfold kl3. rewrite Ht. cbn. apply lookup_insert_eq. }
  assert (Hc3 : cells kl3 = cells kl2 ++ [1])
    by (unfold kl3; by rewrite Ht).
  assert (Hn3 : count kl3 = int32 (count kl2 + 1))
    by (unfold kl3; by rewrite Ht).
  assert (Hlen : length (cells kl2) = length (cells kl))
    by (by rewrite Hc2, Hc1, length_insert).
  assert (Hv3 : cells kl3 !! old = Some 0).
  { rewrite Hc3, lookup_app_l by lia. by rewrite Hc2. }
  exists old, (length (cells kl2)), (AddInt32_count 1 (StoreInt32 old 1 kl3)).
  split; [|split; [|split; [|split; [|split; [|split; [|split]]]]]].
  - unfold Lock_with, LoadOrStore. rewrite Hk. cbn [Lock_loop].
    rewrite (CompareAndSwapInt32_held _ _ Hv). cbv iota beta zeta.
    change (others_run [OUnlock key; OCleanup; OTryLock key] kl) with kl3.
    by rewrite (CompareAndSwapInt32_free _ _ Hv3).
  - fold kl1. fold kl2. by rewrite Ht.
  - done.
  - done.
  - lia.
  - cbn [AddInt32_count StoreInt32 set_count set_cells cells].
    rewrite Hc3. apply list_lookup_insert_eq. rewrite length_app. lia.
  - cbn [AddInt32_count StoreInt32 set_count set_cells cells].
    rewrite Hc3, list_lookup_insert_ne by lia.
    rewrite lookup_app_r by lia. by rewrite Nat.sub_diag.
  - cbn [AddInt32_count StoreInt32 set_count set_cells count].
    rewrite Hn3, Hn2, Hn1. rewrite int32_add_l, <- Z.add_assoc.
    rewrite int32_add_l. f_equal. lia.
Qed.

Lemma Cleanup_while_waiting_two_holders_witness :
  ∃ kl',
    (Lock_with [others_run [OUnlock "a"; OCleanup; OTryLock "a"]] "a"
               (TryLock "a" New).2).1 = (true, kl') ∧
    cells kl' = [1; 1] ∧ locks kl' !! "a" = Some 1%nat ∧ count kl' = 2.
Proof.
  destruct (Cleanup_while_waiting_two_holders "a" (TryLock "a" New).2)
    as (old & new & kl' & H & _).
  - exists 0%nat. split; reflexivity.
  - exists kl'. split; [exact H|]. vm_compute in H. inversion H.
    repeat split; reflexivity.
Defined.

(** ** Round trips and [Cleanup] *)

(** An acquisition followed at once by [Unlock] undoes itself: on a
    reachable manager where the key is not held, [TryLock] (or [Lock])
    then [Unlock] leaves exactly the manager that [LoadOrStore] alone would
    leave, that is the manager as it was when the key was registered, and
    otherwise the manager with one more entry for the key, whose fresh cell
    reads Unlocked.  The counter is back to its value. *)
Theorem TryLock_Unlock_restores (key : string) (kl : KeyLock) :
  reachable kl → ¬ cell_is key 1 kl →
  Unlock key (TryLock key kl).2 = (LoadOrStore key kl).2 ∧
  (is_Some (locks kl !! key) → Unlock key (TryLock key kl).2 = kl) ∧
  (∀ fuel, Unlock key <$> Lock fuel key kl = Some (LoadOrStore key kl).2) ∧
  Size (Unlock key (TryLock key kl).2) = Size kl.
Proof.
  intros Hr Hfree. apply reachable_wf in Hr as Hwf.
  assert (Hcount : int32 (int32 (count kl + 1) + -1) = count kl).
  { rewrite int32_add_l. replace (count kl + 1 + -1) with (count kl) by lia.
    apply int32_id, (wf_count kl Hwf). }
  assert (Hmain : Unlock key (TryLock key kl).2 = (LoadOrStore key kl).2 ∧
                  (is_Some (locks kl !! key) →
                   Unlock key (TryLock key kl).2 = kl)).
  { unfold LoadOrStore. destruct (locks kl !! key) as [lock|] eqn:Hk.
    - destruct (wf_cell _ _ _ Hwf Hk) as [(l & Hl & Hv)|H1]; [|done].
      assert (l = lock) by congruence. subst l. unfold LoadInt32 in Hv.
      rewrite (TryLock_free _ _ _ Hk Hv).
      rewrite (Unlock_present key lock) by done. cbn.
      rewrite list_insert_insert_eq, (list_insert_id _ _ _ Hv), Hcount.
      by destruct kl.
    - rewrite (TryLock_absent _ _ Hk). cbn. split; [|by intros [? ?]].
      rewrite (Unlock_present key (length (cells kl)))
        by (cbn; apply lookup_insert_eq).
      cbn. rewrite Hcount. f_equal.
      rewrite insert_app_r_alt by lia. by rewrite Nat.sub_diag. }
  destruct Hmain as [H1 H2]. split; [done|]. split; [done|]. split.
  - intros fuel. rewrite Lock_alone.
    apply (TryLock_true_iff key kl Hwf) in Hfree. rewrite Hfree. cbn.
    by rewrite H1.
  - rewrite H1. unfold LoadOrStore. by destruct (locks kl !! key).
Qed.

Lemma TryLock_Unlock_restores_witness :
  Unlock "a" (TryLock "a" (Unlock "a" (TryLock "a" New).2)).2
    = Unlock "a" (TryLock "a" New).2 ∧
  Unlock "a" (TryLock "a" New).2 = mkKeyLock {["a" := 0%nat]} [0] 0 16.
Proof.
  split; [|reflexivity].
  destruct (TryLock_Unlock_restores "a" (Unlock "a" (TryLock "a" New).2))
    as (_ & H & _).
  - apply (reach_exec 0 (CUnlock "a") (TryLock "a" New).2); [|reflexivity].
    apply (reach_exec 0 (CTryLock "a") New); [apply reach_New | reflexivity].
  - intros (lock & Hk & Hv). vm_compute in Hk. inversion Hk; subst.
    vm_compute in Hv. discriminate.
  - apply H. by exists 0%nat.
Defined.

(** [Unlock] checks no ownership: on a reachable manager, whoever calls
    [Unlock(key)] and whatever the cell read, [TryLock(key)] succeeds right
    after. *)
Theorem TryLock_after_Unlock (key : string) (kl : KeyLock) :
  reachable kl → (TryLock key (Unlock key kl)).1 = true.
Proof.
  intros Hr. apply reachable_wf in Hr as Hwf.
  apply TryLock_true_iff; [by apply wf_Unlock|]. intros Hheld.
  destruct (locks kl !! key) as [lock|] eqn:Hk.
  - destruct (wf_cell _ _ _ Hwf Hk) as [H|H];
      pose proof (cell_is_fun _ _ _ _ (Unlock_cell _ _ _ H) Hheld); done.
  - rewrite (Unlock_absent _ _ Hk) in Hheld.
    destruct Hheld as (l & Hl & _). congruence.
Qed.

Lemma TryLock_after_Unlock_witness :
  (TryLock "a" (Unlock "a" (TryLock "b" (TryLock "a" New).2).2)).1 = true.
Proof.
  apply (TryLock_after_Unlock "a" (TryLock "b" (TryLock "a" New).2).2).
  apply (reach_exec 0 (CTryLock "b") (TryLock "a" New).2); [|reflexivity].
  apply (reach_exec 0 (CTryLock "a") New); [apply reach_New | reflexivity].
Defined.

Lemma Cleanup_eta kl :
  Cleanup kl = mkKeyLock (locks (Cleanup kl)) (cells kl) (count kl) (maxSpins kl).
Proof. reflexivity. Qed.

(** [Cleanup] is idempotent: a second [Cleanup] made at once removes
    nothing more. *)
Theorem Cleanup_idempotent (kl : KeyLock) : Cleanup (Cleanup kl) = Cleanup kl.
Proof.
  assert (H : locks (Cleanup (Cleanup kl)) = locks (Cleanup kl)).
  { apply map_eq. intros key. apply Cleanup_lookup_other.
    intros lock Hk. apply Cleanup_lookup_Some in Hk as [_ Hv]. done. }
  rewrite (Cleanup_eta (Cleanup kl)), H. reflexivity.
Qed.

(** After [Cleanup] the registry of a reachable manager holds the keys
    whose cell reads Locked, each with the pointer it had, and no other
    key. *)
Theorem Cleanup_leaves_held_keys (key : string) (kl : KeyLock) :
  reachable kl →
  (is_Some (locks (Cleanup kl) !! key) ↔ cell_is key 1 kl) ∧
  (is_Some (locks (Cleanup kl) !! key) ↔ cell_is key 1 (Cleanup kl)) ∧
  (cell_is key 1 kl → locks (Cleanup kl) !! key = locks kl !! key).
Proof.
  intros Hr. apply reachable_wf in Hr as Hwf.
  assert (H1 : is_Some (locks (Cleanup kl) !! key) ↔ cell_is key 1 kl).
  { split.
    - intros [lock Hk]. apply Cleanup_lookup_Some in Hk as [Hk Hv].
      destruct (wf_cell _ _ _ Hwf Hk) as [(l & Hl & Hl0)|H]; [|done].
      congruence.
    - intros Hheld. destruct (Cleanup_held key 1 kl) as (lock & Hk & _);
        [done|done|]. by exists lock. }
  split; [done|]. split.
  - rewrite H1. split; [by apply Cleanup_held | apply Cleanup_held_inv].
  - intros (lock & Hk & Hv). apply Cleanup_lookup_other.
    intros l Hl. rewrite Hk in Hl. inversion Hl; subst. by rewrite Hv.
Qed.

Lemma Cleanup_leaves_held_keys_witness :
  is_Some (locks (Cleanup (Unlock "a" (TryLock "b" (TryLock "a" New).2).2))
             !! "b") ∧
  ¬ is_Some (locks (Cleanup (Unlock "a" (TryLock "b" (TryLock "a" New).2).2))
               !! "a").
Proof.
  assert (Hr : reachable (Unlock "a" (TryLock "b" (TryLock "a" New).2).2)).
  { apply (reach_exec 0 (CUnlock "a") (TryLock "b" (TryLock "a" New).2).2);
      [|reflexivity].
    apply (reach_exec 0 (CTryLock "b") (TryLock "a" New).2); [|reflexivity].
    apply (reach_exec 0 (CTryLock "a") New); [apply reach_New | reflexivity]. }
  split.
  - destruct (Cleanup_leaves_held_keys "b" _ Hr) as ([_ Hb] & _).
    apply Hb. exists 1%nat. split; reflexivity.
  - destruct (Cleanup_leaves_held_keys "a" _ Hr) as ([Ha _] & _).
    intros H. destruct (Ha H) as (lock & Hk & Hv).
    vm_compute in Hk. inversion Hk; subst. vm_compute in Hv. discriminate.
Defined.

(** ** The counter and the cells *)

Lemma holds_locked_cells held kl : holds held kl → locked_cells kl = size held.
Proof.
  intros (_ & Hh & _). unfold locked_cells. rewrite <- size_dom. f_equal.
  apply set_eq. intros key. rewrite Hh, elem_of_dom. unfold cell_is. split.
  - intros [lock Hf]. apply map_lookup_filter_Some in Hf as [Hk Hv].
    by exists lock.
  - intros (lock & Hk & Hv). exists lock. by apply map_lookup_filter_Some.
Qed.

Lemma holds_of_locked_cells kl :
  wf kl → count kl = int32 (Z.of_nat (locked_cells kl)) →
  ∃ held, holds held kl.
Proof.
  intros Hwf Hc.
  exists (dom (filter (λ e : string * nat, LoadInt32 e.2 kl = Some 1) (locks kl))).
  split; [done|]. split.
  - intros key. rewrite elem_of_dom. unfold cell_is. split.
    + intros [lock Hf]. apply map_lookup_filter_Some in Hf as [Hk Hv].
      by exists lock.
    + intros (lock & Hk & Hv). exists lock. by apply map_lookup_filter_Some.
  - rewrite Hc. unfold locked_cells. by rewrite size_dom.
Qed.

Lemma holds_Cleanup held kl : holds held kl → holds held (Cleanup kl).
Proof.
  intros (Hwf & Hh & Hc). split; [by apply wf_Cleanup|]. split; [|done].
  intros key. rewrite Hh. split; [by apply Cleanup_held | apply Cleanup_held_inv].
Qed.

(** The one call that can break "the counter is the number of Locked cells"
    is an [Unlock] of a key that is not held.  On a reachable manager where
    the counter is the number of registered cells that read Locked (as an
    [int32]), a call that returns keeps it so, provided that, if it is an
    [Unlock], the cell of its key reads Locked. *)
Theorem counter_tracks_locked_cells (fuel : nat) (c : Call) (kl kl' : KeyLock) :
  reachable kl →
  count kl = int32 (Z.of_nat (locked_cells kl)) →
  (∀ key, c = CUnlock key → cell_is key 1 kl) →
  exec fuel c kl = Some kl' →
  count kl' = int32 (Z.of_nat (locked_cells kl')).
Proof.
  intros Hr Hc Hu Hex. apply reachable_wf in Hr as Hwf.
  destruct (holds_of_locked_cells kl Hwf Hc) as [held Hh].
  assert (Hgoal : ∀ held', holds held' kl' →
                           count kl' = int32 (Z.of_nat (locked_cells kl'))).
  { intros held' Hh'. rewrite (holds_locked_cells _ _ Hh').
    by destruct Hh' as (_ & _ & ?). }
  assert (Htry : ∀ key, ∃ held', holds held' (TryLock key kl).2).
  { intros key. destruct (TryLock key kl).1 eqn:Ht.
    - exists ({[key]} ∪ held). apply holds_TryLock; [done|].
      destruct Hh as (_ & Hmem & _). rewrite Hmem.
      by apply TryLock_true_iff.
    - exists held. by rewrite (TryLock_false_same _ _ Ht). }
  destruct c as [key|key|key| |]; cbn in Hex.
  - rewrite Lock_alone in Hex. destruct (TryLock key kl).1; [|done].
    inversion Hex; subst. destruct (Htry key) as [held' Hh']. eauto.
  - inversion Hex; subst. destruct (Htry key) as [held' Hh']. eauto.
  - inversion Hex; subst. apply (Hgoal (held ∖ {[key]})).
    apply holds_Unlock; [done|]. destruct Hh as (_ & Hmem & _).
    apply Hmem. by apply Hu.
  - inversion Hex; subst. eauto.
  - inversion Hex; subst. apply (Hgoal held). by apply holds_Cleanup.
Qed.

Lemma counter_tracks_locked_cells_witness :
  count (Unlock "a" (TryLock "b" (TryLock "a" New).2).2)
    = int32 (Z.of_nat (locked_cells
                         (Unlock "a" (TryLock "b" (TryLock "a" New).2).2))).
Proof.
  apply (counter_tracks_locked_cells 0 (CUnlock "a")
           (TryLock "b" (TryLock "a" New).2).2).
  - apply (reach_exec 0 (CTryLock "b") (TryLock "a" New).2); [|reflexivity].
    apply (reach_exec 0 (CTryLock "a") New); [apply reach_New | reflexivity].
  - reflexivity.
  - intros key [= <-]. exists 0%nat. split; reflexivity.
  - reflexivity.
Defined.

(** No call changes the ceiling: along any sequence of calls [maxSpins]
    keeps the value that [New] or [WithMaxSpins] gave it. *)
Theorem run_keeps_maxSpins (fuel : nat) (cs : list Call) (kl kl' : KeyLock) :
  run fuel cs kl = Some kl' → maxSpins kl' = maxSpins kl.
Proof.
  revert kl. induction cs as [|c cs IH]; intros kl; cbn.
  - by intros [= <-].
  - destruct (exec fuel c kl) as [kl1|] eqn:Hex; [|done].
    intros Hrun. rewrite (IH _ Hrun).
    destruct c as [key|key|key| |]; cbn in Hex.
    + rewrite Lock_alone in Hex. destruct (TryLock key kl).1; [|done].
      inversion Hex. apply maxSpins_TryLock.
    + inversion Hex. apply maxSpins_TryLock.
    + inversion Hex. apply maxSpins_Unlock.
    + by inversion Hex.
    + by inversion Hex.
Qed.

Lemma run_keeps_maxSpins_witness :
  ∃ kl', run 0 [CLock "a"; CTryLock "b"; CUnlock "a"; CCleanup; CSize]
             (WithMaxSpins 32 New) = Some kl' ∧ maxSpins kl' = 32.
Proof.
  destruct (run 0 [CLock "a"; CTryLock "b"; CUnlock "a"; CCleanup; CSize]
                (WithMaxSpins 32 New)) as [kl'|] eqn:Hrun; [|discriminate].
  exists kl'. split; [reflexivity|].
  exact (run_keeps_maxSpins 0 _ _ _ Hrun).
Defined.

(** ** The backoff schedule *)

Lemma next_backoff_pow j kl :
  in_int32 (maxSpins kl) → 0 <= j →
  next_backoff (2 ^ Z.min j (Z.log2_up (maxSpins kl))) kl
    = 2 ^ Z.min (j + 1) (Z.log2_up (maxSpins kl)).
Proof.
  intros Hm Hj. unfold next_backoff, in_int32 in *.
  destruct (Z_le_gt_dec (maxSpins kl) 0) as [Hle|Hgt].
  - rewrite (Z.log2_up_nonpos _ Hle). rewrite !Z.min_r by lia.
    change (2 ^ 0) with 1. destruct (Z.ltb_spec 1 (maxSpins kl)); [lia|done].
  - pose proof (Z.log2_up_nonneg (maxSpins kl)) as HL0.
    assert (HL : Z.log2_up (maxSpins kl) <= 31)
      by (apply Z.log2_up_le_pow2; lia).
    destruct (Z_lt_le_dec j (Z.log2_up (maxSpins kl))) as [Hlt|Hge].
    + rewrite Z.min_l by lia. rewrite (Z.min_l (j + 1)) by lia.
      pose proof (proj2 (Z.log2_up_lt_pow2 (maxSpins kl) j ltac:(lia)) Hlt).
      destruct (Z.ltb_spec (2 ^ j) (maxSpins kl)); [|lia].
      assert (0 < 2 ^ j) by (apply Z.pow_pos_nonneg; lia).
      assert (2 ^ j <= 2 ^ 32) by (apply Z.pow_le_mono_r; lia).
      rewrite shiftl_1_small by lia. rewrite Z.pow_add_r by lia. lia.
    + rewrite !Z.min_r by lia.
      destruct (Z.ltb_spec (2 ^ Z.log2_up (maxSpins kl)) (maxSpins kl))
        as [Hlt|]; [|done].
      apply Z.log2_up_lt_pow2 in Hlt; lia.
Qed.

Lemma Lock_loop_schedule env lock j kl :
  Forall (λ f : KeyLock → KeyLock, ∀ s, maxSpins (f s) = maxSpins s) env →
  in_int32 (maxSpins kl) → 0 <= j →
  ∀ i w,
    (Lock_loop env lock (2 ^ Z.min j (Z.log2_up (maxSpins kl))) kl).2 !! i
      = Some w →
    w_backoff w = 2 ^ Z.min (j + Z.of_nat i) (Z.log2_up (maxSpins kl)) ∧
    w_yields w = Z.to_nat (w_backoff w).
Proof.
  intros Henv. revert j kl.
  induction Henv as [|f env Hf _ IH]; intros j kl Hm Hj i w;
    cbn [Lock_loop];
    pose proof (maxSpins_CompareAndSwapInt32 lock 0 1 kl) as Hcas;
    destruct (CompareAndSwapInt32 lock 0 1 kl) as [[] kl1];
    cbn [fst snd] in *; try done.
  assert (Hm2 : maxSpins (f kl1) = maxSpins kl) by (by rewrite Hf).
  assert (Hn : next_backoff (2 ^ Z.min j (Z.log2_up (maxSpins kl))) (f kl1)
               = 2 ^ Z.min (j + 1) (Z.log2_up (maxSpins (f kl1)))).
  { rewrite <- Hm2. apply next_backoff_pow; [by rewrite Hm2 | done]. }
  rewrite Hn. specialize (IH (j + 1) (f kl1)). rewrite Hm2 in IH.
  rewrite Hm2. specialize (IH Hm ltac:(lia)).
  destruct (Lock_loop env lock _ (f kl1)) as [[acquired kl3] waits].
  cbn [snd] in *. destruct i as [|i]; cbn.
  - intros [= <-]. cbn. split; [f_equal; lia | done].
  - intros Hw. destruct (IH i w Hw) as [-> Hy]. split; [f_equal; lia | done].
Qed.

(** The backoff schedule in closed form.  Whatever the other goroutines
    do, the wait number [i] (from 0) of a [Lock] calls [runtime.Gosched]
    2^min(i, L) times, where L is the base-2 logarithm of [maxSpins] rounded
    up, and 0 for a ceiling of 1 or less: the yields double from 1 up to the
    first power of two that reaches the ceiling, then stay there; with a
    ceiling of 1, 0 or a negative one every wait yields once. *)
Theorem Lock_backoff_schedule (others : list (list Other)) (key : string)
    (kl : KeyLock) (i : nat) (w : Wait) :
  in_int32 (maxSpins kl) →
  (Lock_with (others_run <$> others) key kl).2 !! i = Some w →
  w_backoff w = 2 ^ Z.min (Z.of_nat i) (Z.log2_up (maxSpins kl)) ∧
  w_yields w = Z.to_nat (2 ^ Z.min (Z.of_nat i) (Z.log2_up (maxSpins kl))).
Proof.
  intros Hm. unfold Lock_with.
  pose proof (maxSpins_LoadOrStore key kl) as Hls.
  destruct (LoadOrStore key kl) as [lock kl1]. cbn [snd] in Hls.
  rewrite <- Hls in *. intros Hw.
  destruct (Lock_loop_schedule (others_run <$> others) lock 0 kl1) with i w
    as [Hb Hy]; try done.
  - apply Forall_fmap, Forall_forall. intros os _ s. apply maxSpins_others_run.
  - by rewrite Z.min_l by (pose proof (Z.log2_up_nonneg (maxSpins kl1)); lia).
  - rewrite Z.add_0_l in Hb. by rewrite Hy, Hb.
Qed.

Lemma Lock_backoff_schedule_witness :
  (w_yields <$> (Lock_with (others_run <$> [[]; []; []; []; []; []; []]) "a"
                           (TryLock "a" New).2).2)
    = [1; 2; 4; 8; 16; 16; 16]%nat ∧
  w_backoff (mkWait 16 16 16)
    = 2 ^ Z.min (Z.of_nat 6) (Z.log2_up (maxSpins (TryLock "a" New).2)).
Proof.
  split; [reflexivity|].
  destruct (Lock_backoff_schedule [[]; []; []; []; []; []; []] "a"
              (TryLock "a" New).2 6 (mkWait 16 16 16)) as [Hb _].
  - unfold in_int32. vm_compute. split; [discriminate | reflexivity].
  - reflexivity.
  - exact Hb.
Defined.

(** ** The registry between two calls of [Cleanup] *)

Lemma dom_locks_TryLock key kl :
  dom (locks (TryLock key kl).2) = {[key]} ∪ dom (locks kl).
Proof.
  destruct (locks kl !! key) as [lock|] eqn:Hk.
  - assert (Hin : key ∈ dom (locks kl)) by (apply elem_of_dom; eauto).
    assert (Hsame : locks (TryLock key kl).2 = locks kl).
    { destruct (cells kl !! lock) as [v|] eqn:Hv.
      - destruct (decide (v = 0)) as [->|Hne].
        + by rewrite (TryLock_free _ _ _ Hk Hv).
        + by rewrite (TryLock_taken _ _ _ _ Hk Hv Hne).
      - by rewrite (TryLock_dangling _ _ _ Hk Hv). }
    rewrite Hsame. clear - Hin. set_solver.
  - rewrite (TryLock_absent _ _ Hk). cbn. apply dom_insert_L.
Qed.

(** Without [Cleanup] the registry only grows, by one entry for each key
    that a [Lock] or [TryLock] asks for, whether or not the key is still
    held and whether or not the [TryLock] succeeded: after a sequence of
    calls with no [Cleanup], the registered keys are those registered
    before and those requested. *)
Theorem registry_keeps_requested_keys (fuel : nat) (cs : list Call)
    (kl kl' : KeyLock) :
  CCleanup ∉ cs → run fuel cs kl = Some kl' →
  dom (locks kl') = dom (locks kl) ∪ requested_keys cs.
Proof.
  revert kl. induction cs as [|c cs IH]; intros kl Hcs; cbn [run].
  - intros [= <-]. cbn. set_solver.
  - apply not_elem_of_cons in Hcs as [Hc Hcs].
    destruct (exec fuel c kl) as [kl1|] eqn:Hex; [|done].
    intros Hrun. rewrite (IH _ Hcs Hrun).
    destruct c as [key|key|key| |]; cbn in Hex |- *.
    + rewrite Lock_alone in Hex. destruct (TryLock key kl).1; [|done].
      inversion Hex. rewrite dom_locks_TryLock. set_solver.
    + inversion Hex. rewrite dom_locks_TryLock. set_solver.
    + inversion Hex. by rewrite Unlock_locks.
    + by inversion Hex.
    + done.
Qed.

Lemma registry_keeps_requested_keys_witness :
  ∃ kl', run 0 [CLock "a"; CTryLock "a"; CUnlock "a"; CTryLock "b";
                CUnlock "b"] New = Some kl' ∧
         dom (locks kl') = {["a"; "b"]} ∧ Size kl' = 0.
Proof.
  destruct (run 0 [CLock "a"; CTryLock "a"; CUnlock "a"; CTryLock "b";
                   CUnlock "b"] New) as [kl'|] eqn:Hrun; [|discriminate].
  exists kl'. split; [reflexivity|]. split.
  - rewrite (registry_keeps_requested_keys 0
               [CLock "a"; CTryLock "a"; CUnlock "a"; CTryLock "b"; CUnlock "b"]
               New kl'); [| |exact Hrun].
    + cbn. rewrite dom_empty_L. set_solver.
    + intros Hin.
      repeat (apply elem_of_cons in Hin as [Hin|Hin]; [discriminate|]).
      by apply elem_of_nil in Hin.
  - vm_compute in Hrun. inversion Hrun. reflexivity.
Defined.
